(** * A keyed priority queue (package [kpq]) and its specification

    Shallow embedding of [kpq/keyed_priority_queue.go]: an indexed binary
    heap over a position slice [pm], its inverse map [im] and the value map
    [vals], ordered by a caller-supplied comparison function.

    - Go's [int] is a 64-bit two's-complement integer (the size it has on
      64-bit platforms); it is modelled as [Z] with the wrap-around of every
      arithmetic operation written out.
    - A method with a pointer receiver becomes a function from the queue to
      a computation returning the new queue and the Go results.
    - A computation records the slots at which [pm] was indexed and ends in
      a value, in a run-time panic, or out of the fuel that bounds the two
      loops; the fuel that [swim] and [sink] pass is shown to suffice.
    - The reader/writer mutex is not modelled: every method holds it for its
      whole body, so the methods are atomic steps on the queue. *)

From Stdlib Require Import ZArith Lia.
From stdpp Require Import gmap list strings sorting.

Local Open Scope Z_scope.

(** ** Go's [int] *)

Module GoInt.

Definition max_int : Z := 9223372036854775807.
Definition min_int : Z := -9223372036854775808.

(** Two's-complement reduction of an ideal integer to 64 bits. *)
Definition wrap (z : Z) : Z :=
  (z - min_int) mod 18446744073709551616 + min_int.

Definition add (a b : Z) : Z := wrap (a + b).
Definition sub (a b : Z) : Z := wrap (a - b).
Definition mul (a b : Z) : Z := wrap (a * b).
(** Go's [/] truncates toward zero. *)
Definition quot (a b : Z) : Z := wrap (Z.quot a b).

Definition is_int (z : Z) : Prop := min_int <= z <= max_int.

End GoInt.

(** Linear arithmetic with division and remainder by constants. *)
Ltac dlia := Z.to_euclidean_division_equations; lia.

Ltac unfold_int :=
  unfold GoInt.is_int, GoInt.add, GoInt.sub, GoInt.mul, GoInt.quot,
    GoInt.wrap, GoInt.min_int, GoInt.max_int in *.

(** ** Computations: slot log, panics and fuel *)

Inductive panic : Type :=
| NilCmp            (* panic("... comparison function cannot be nil") *)
| IndexOutOfRange   (* s[i] with i outside [0, len(s)) *)
| SliceOutOfRange   (* s[:n] with n outside [0, len(s)] *)
| LenOutOfRange.    (* append growing a slice past the largest int *)

Inductive outcome (A : Type) : Type :=
| Done (a : A)
| Panic (p : panic)
| OutOfFuel.
Arguments Done {A} a.
Arguments Panic {A} p.
Arguments OutOfFuel {A}.

(** [slots] lists, in order, the indices at which the position slice was
    indexed (read or written) during the computation. *)
Record M (A : Type) : Type := Run { slots : list Z; result : outcome A }.
Arguments Run {A} slots result.
Arguments slots {A} m.
Arguments result {A} m.

Definition M_ret {A} (a : A) : M A := Run [] (Done a).

Definition M_bind {A B} (f : A → M B) (m : M A) : M B :=
  match result m with
  | Done a => let r := f a in Run (slots m ++ slots r) (result r)
  | Panic p => Run (slots m) (Panic p)
  | OutOfFuel => Run (slots m) OutOfFuel
  end.

Definition throw {A} (p : panic) : M A := Run [] (Panic p).

#[global] Instance M_mret : MRet M := @M_ret.
#[global] Instance M_mbind : MBind M := @M_bind.

(** The zero value of a Go type ([var x T]). *)
Class Zero (A : Type) : Type := zero : A.
#[global] Instance Z_zero : Zero Z := 0.
#[global] Instance string_zero : Zero string := EmptyString.

(** The text that [fmt]'s verb [%v] prints for a value. *)
Class Format (A : Type) : Type := format_v : A → string.
#[global] Instance string_format : Format string := λ s, s.

(** ** Slices *)

Section Slice.
Context {A : Type}.

(** [len(s)] *)
Definition len (s : list A) : Z := Z.of_nat (length s).

(** The element in slot [i], if that slot exists. *)
Definition slot (s : list A) (i : Z) : option A :=
  if (0 <=? i) then s !! Z.to_nat i else None.

(** [s[i]] as an expression *)
Definition index (s : list A) (i : Z) : M A :=
  match slot s i with
  | Some x => Run [i] (Done x)
  | None => Run [i] (Panic IndexOutOfRange)
  end.

(** [s[i] = x] *)
Definition assign (s : list A) (i : Z) (x : A) : M (list A) :=
  match slot s i with
  | Some _ => Run [i] (Done (<[Z.to_nat i := x]> s))
  | None => Run [i] (Panic IndexOutOfRange)
  end.

(** [append(s, x)]: the length of a slice is an [int], and growing a slice
    past the largest one panics at run time. *)
Definition append (s : list A) (x : A) : M (list A) :=
  if (len s <? GoInt.max_int) then mret (s ++ [x]) else throw LenOutOfRange.

(** [s[:n]], for [n] up to the length of [s]. *)
Definition slice_to (s : list A) (n : Z) : M (list A) :=
  if (0 <=? n) && (n <=? len s) then mret (take (Z.to_nat n) s)
  else throw SliceOutOfRange.

End Slice.

(** ** The queue *)

Section KPQ.
Context {K : Type} `{Countable K} {V : Type} `{Zero K} `{Zero V} `{Format K}.

Record keyError : Type := {
  key : K;
  msg : string   (* description of the error *)
}.

(** The two error types embed [keyError]; a returned [error] is a value of
    one of them. *)
Inductive error : Type :=
| KeyAlreadyExistsError (e : keyError)
| KeyNotFoundError (e : keyError).

(** The embedded [keyError] and its methods [Error] and [Key]. *)
Definition keyError_of (e : error) : keyError :=
  match e with
  | KeyAlreadyExistsError e' => e'
  | KeyNotFoundError e' => e'
  end.

Definition Error (e : error) : string := msg (keyError_of e).

Definition Key (e : error) : K := key (keyError_of e).

(** The double quote that the messages put around the key. *)
Definition quote : string := String (Ascii.ascii_of_nat 34) EmptyString.

Definition newKeyAlreadyExistsError (k : K) : error :=
  KeyAlreadyExistsError
    {| key := k;
       msg := "keyed priority queue: key " +:+ quote +:+ format_v k +:+ quote
              +:+ " already exists" |}.

Definition newKeyNotFoundError (k : K) : error :=
  KeyNotFoundError
    {| key := k;
       msg := "keyed priority queue: key " +:+ quote +:+ format_v k +:+ quote
              +:+ " does not exist" |}.

(** A non-nil comparison function. *)
Definition CmpFunc : Type := V → V → bool.

Record KeyedPriorityQueue : Type := {
  pm : list K;        (* position map *)
  im : gmap K Z;      (* inverse map of pm *)
  vals : gmap K V;    (* priority value of each key *)
  cmp : CmpFunc
}.

(** A function value may be nil: the argument is optional. *)
Definition NewKeyedPriorityQueue (c : option CmpFunc) : M KeyedPriorityQueue :=
  match c with
  | None => throw NilCmp
  | Some f => mret {| pm := []; im := ∅; vals := ∅; cmp := f |}
  end.

(** [m[k]] on a map of values: the zero value when [k] is absent. *)
Definition value_of (m : gmap K V) (k : K) : V := default zero (m !! k).

Definition leftChild (i : Z) : Z := GoInt.add (GoInt.mul i 2) 1.

Definition parent (i : Z) : Z := GoInt.quot (GoInt.sub i 1) 2.

Definition compare (pq : KeyedPriorityQueue) (i j : Z) : M bool :=
  ki ← index (pm pq) i;
  kj ← index (pm pq) j;
  mret (cmp pq (value_of (vals pq) ki) (value_of (vals pq) kj)).

(** Both statements are tuple assignments: the right-hand sides and the
    index operands on the left are evaluated first, then the assignments
    happen from left to right. *)
Definition swap (pq : KeyedPriorityQueue) (i j : Z) : M KeyedPriorityQueue :=
  kj ← index (pm pq) j;
  ki ← index (pm pq) i;
  pm1 ← assign (pm pq) i kj;
  pm2 ← assign pm1 j ki;
  a ← index pm2 i;
  b ← index pm2 j;
  mret {| pm := pm2; im := <[b := j]> (<[a := i]> (im pq));
          vals := vals pq; cmp := cmp pq |}.

Fixpoint swim_loop (fuel : nat) (pq : KeyedPriorityQueue) (i : Z)
  : M KeyedPriorityQueue :=
  match fuel with
  | O => Run [] OutOfFuel
  | S fuel' =>
      if (0 <? i) then
        b ← compare pq i (parent i);
        if (b : bool) then
          pq' ← swap pq i (parent i);
          swim_loop fuel' pq' (parent i)
        else mret pq
      else mret pq
  end.

(** The slot moves to its parent in every iteration, so [i] iterations
    and a final test are all the loop can make. *)
Definition swim (pq : KeyedPriorityQueue) (i : Z) : M KeyedPriorityQueue :=
  swim_loop (S (Z.to_nat i)) pq i.

Fixpoint sink_loop (fuel : nat) (pq : KeyedPriorityQueue) (i n : Z)
  : M KeyedPriorityQueue :=
  match fuel with
  | O => Run [] OutOfFuel
  | S fuel' =>
      if (leftChild i <? n) then
        let j := leftChild i in
        if (j <? 0) then mret pq   (* j < 0 after int overflow *)
        else
          let r := GoInt.add j 1 in
          b ← (if (r <? n) then compare pq r j else mret false);
          let j := if (b : bool) then r else j in
          c ← compare pq j i;
          if negb c then mret pq
          else
            pq' ← swap pq i j;
            sink_loop fuel' pq' j n
      else mret pq
  end.

(** The slot moves to one of its children below [n] in every iteration. *)
Definition sink (pq : KeyedPriorityQueue) (i n : Z) : M KeyedPriorityQueue :=
  sink_loop (S (Z.to_nat n)) pq i n.

Definition Push (pq : KeyedPriorityQueue) (k : K) (v : V)
  : M (KeyedPriorityQueue * option error) :=
  match im pq !! k with
  | Some _ => mret (pq, Some (newKeyAlreadyExistsError k))
  | None =>
      let n := len (pm pq) in
      pm' ← append (pm pq) k;
      pq' ← swim {| pm := pm'; im := <[k := n]> (im pq);
                    vals := <[k := v]> (vals pq); cmp := cmp pq |} n;
      mret (pq', None)
  end.

Definition Pop (pq : KeyedPriorityQueue)
  : M (KeyedPriorityQueue * (K * V * bool)) :=
  if (len (pm pq) =? 0) then mret (pq, (zero, zero, false))
  else
    let n := GoInt.sub (len (pm pq)) 1 in
    k ← index (pm pq) 0;
    let v := value_of (vals pq) k in
    pq1 ← swap pq 0 n;
    pq2 ← sink pq1 0 n;
    pm' ← slice_to (pm pq2) n;
    mret ({| pm := pm'; im := delete k (im pq2);
             vals := delete k (vals pq2); cmp := cmp pq2 |}, (k, v, true)).

Definition Update (pq : KeyedPriorityQueue) (k : K) (v : V)
  : M (KeyedPriorityQueue * option error) :=
  match im pq !! k with
  | None => mret (pq, Some (newKeyNotFoundError k))
  | Some i =>
      let pq0 := {| pm := pm pq; im := im pq;
                    vals := <[k := v]> (vals pq); cmp := cmp pq |} in
      pq1 ← swim pq0 i;
      pq2 ← sink pq1 i (Z.of_nat (size (vals pq1)));
      mret (pq2, None)
  end.

Definition Peek (pq : KeyedPriorityQueue) : M (K * V * bool) :=
  if (len (pm pq) =? 0) then mret (zero, zero, false)
  else
    k ← index (pm pq) 0;
    k' ← index (pm pq) 0;
    mret (k, value_of (vals pq) k', true).

Definition PeekKey (pq : KeyedPriorityQueue) : M (K * bool) :=
  if (len (pm pq) =? 0) then mret (zero, false)
  else
    k ← index (pm pq) 0;
    mret (k, true).

Definition PeekValue (pq : KeyedPriorityQueue) : M (V * bool) :=
  if (len (pm pq) =? 0) then mret (zero, false)
  else
    k ← index (pm pq) 0;
    mret (value_of (vals pq) k, true).

Definition Contains (pq : KeyedPriorityQueue) (k : K) : bool :=
  bool_decide (is_Some (im pq !! k)).

Definition ValueOf (pq : KeyedPriorityQueue) (k : K) : V * bool :=
  match vals pq !! k with
  | Some v => (v, true)
  | None => (zero, false)
  end.

Definition Remove (pq : KeyedPriorityQueue) (k : K) : M KeyedPriorityQueue :=
  match im pq !! k with
  | None => mret pq
  | Some i =>
      let n := GoInt.sub (len (pm pq)) 1 in
      pq' ← (if (i =? n) then mret pq
             else
               pq1 ← swap pq i n;
               pq2 ← sink pq1 i n;
               swim pq2 i);
      pm' ← slice_to (pm pq') n;
      mret {| pm := pm'; im := delete k (im pq');
              vals := delete k (vals pq'); cmp := cmp pq' |}
  end.

Definition Len (pq : KeyedPriorityQueue) : Z := len (pm pq).

Definition IsEmpty (pq : KeyedPriorityQueue) : bool := len (pm pq) =? 0.

End KPQ.

Arguments KeyedPriorityQueue K {_ _} V.
Arguments error K : clear implicits.
Arguments keyError K : clear implicits.

(** ** Vocabulary of the specification *)

Section Spec.
Context {K : Type} `{Countable K} {V : Type} `{Zero K} `{Zero V} `{Format K}.
Implicit Types (pq : KeyedPriorityQueue K V) (i j c n : Z) (k : K) (v : V).

(** The parent of a non-root slot, [(c - 1) / 2], as an ideal integer. *)
Definition up (c : Z) : Z := (c - 1) / 2.

(** The priority value held in slot [i]: [vals[pm[i]]]. *)
Definition sv pq i : V :=
  match slot (pm pq) i with
  | Some k => value_of (vals pq) k
  | None => zero
  end.

(** The queue after the keys of slots [i] and [j] have changed places. *)
Definition exchange pq i j : KeyedPriorityQueue K V :=
  match slot (pm pq) i, slot (pm pq) j with
  | Some ki, Some kj =>
      {| pm := <[Z.to_nat j := ki]> (<[Z.to_nat i := kj]> (pm pq));
         im := <[ki := j]> (<[kj := i]> (im pq));
         vals := vals pq; cmp := cmp pq |}
  | _, _ => pq
  end.

(** The child of [i] that [sink] compares with [i]: the right one when it
    lies below [n] and has priority over the left one. *)
Definition better_child pq i n : Z :=
  if (2 * i + 2 <? n) && cmp pq (sv pq (2 * i + 2)) (sv pq (2 * i + 1))
  then 2 * i + 2 else 2 * i + 1.

(** The runs of the sift-up loop started at slot [i]. *)
Inductive swims : Z → KeyedPriorityQueue K V → KeyedPriorityQueue K V → Prop :=
| swims_root i pq : i <= 0 → swims i pq pq
| swims_stop i pq :
    0 < i → cmp pq (sv pq i) (sv pq (up i)) = false → swims i pq pq
| swims_move i pq pq' :
    0 < i → cmp pq (sv pq i) (sv pq (up i)) = true →
    swims (up i) (exchange pq i (up i)) pq' → swims i pq pq'.

(** The runs of the sift-down loop started at slot [i] with bound [n]. *)
Inductive sinks (n : Z) : Z → KeyedPriorityQueue K V → KeyedPriorityQueue K V → Prop :=
| sinks_leaf i pq : n <= 2 * i + 1 → sinks n i pq pq
| sinks_stop i pq :
    2 * i + 1 < n →
    cmp pq (sv pq (better_child pq i n)) (sv pq i) = false → sinks n i pq pq
| sinks_move i pq pq' :
    2 * i + 1 < n →
    cmp pq (sv pq (better_child pq i n)) (sv pq i) = true →
    sinks n (better_child pq i n) (exchange pq i (better_child pq i n)) pq' →
    sinks n i pq pq'.

(** A strict weak ordering: a strict partial order whose incomparability
    relation is transitive. *)
Definition incomparable (f : V → V → bool) (x y : V) : Prop :=
  f x y = false ∧ f y x = false.

Record StrictWeak (f : V → V → bool) : Prop := {
  sw_irrefl : ∀ x, f x x = false;
  sw_trans : ∀ x y z, f x y = true → f y z = true → f x z = true;
  sw_incomp : ∀ x y z, incomparable f x y → incomparable f y z → incomparable f x z
}.

(** [pm] and [im] are inverse to each other. *)
Definition inverse pq : Prop :=
  ∀ i k, slot (pm pq) i = Some k ↔ im pq !! k = Some i.

(** [vals] has the keys of [im]. *)
Definition same_keys pq : Prop :=
  ∀ k, is_Some (vals pq !! k) ↔ is_Some (im pq !! k).

(** The slot [c] does not have priority over its parent. *)
Definition ordered pq c : Prop := cmp pq (sv pq c) (sv pq (up c)) = false.

(** The heap property on the slots below [n]. *)
Definition heap_upto n pq : Prop := ∀ c, 0 < c < n → ordered pq c.

(** The children of [i] do not have priority over the parent of [i]. *)
Definition grand n i pq : Prop :=
  ∀ c, 0 < i → 0 < c < n → up c = i → cmp pq (sv pq c) (sv pq (up i)) = false.

(** The heap property, except that nothing is known of the value in slot
    [i] beyond [grand]. *)
Definition hole n i pq : Prop :=
  (∀ c, 0 < c < n → c ≠ i → up c ≠ i → ordered pq c) ∧ grand n i pq.

(** The heap property, except between [i] and its parent. *)
Definition up_ok n i pq : Prop :=
  (∀ c, 0 < c < n → c ≠ i → ordered pq c) ∧ grand n i pq.

(** The heap property, except between [i] and its children. *)
Definition down_ok n i pq : Prop :=
  (∀ c, 0 < c < n → up c ≠ i → ordered pq c) ∧ grand n i pq.

(** The three containers describe one set of keys, each in one slot. *)
Record paired pq : Prop := {
  p_len : len (pm pq) <= GoInt.max_int;
  p_inverse : inverse pq;
  p_keys : same_keys pq
}.

(** What holds of a queue between two calls of its methods. *)
Definition consistent pq : Prop := paired pq ∧ heap_upto (len (pm pq)) pq.

(** Sequences of calls of the mutating methods. *)
Inductive op : Type :=
| OpPush (k : K) (v : V)
| OpPop
| OpUpdate (k : K) (v : V)
| OpRemove (k : K).

Definition apply_op pq (o : op) : M (KeyedPriorityQueue K V) :=
  match o with
  | OpPush k v => r ← Push pq k v; mret r.1
  | OpPop => r ← Pop pq; mret r.1
  | OpUpdate k v => r ← Update pq k v; mret r.1
  | OpRemove k => Remove pq k
  end.

Fixpoint run (os : list op) pq : M (KeyedPriorityQueue K V) :=
  match os with
  | [] => mret pq
  | o :: os' => pq' ← apply_op pq o; run os' pq'
  end.

(** A queue obtained from [NewKeyedPriorityQueue f] by calls that returned. *)
Definition reachable (f : V → V → bool) pq : Prop :=
  ∃ os pq0, result (NewKeyedPriorityQueue (Some f)) = Done pq0 ∧
            result (run os pq0) = Done pq.

(** [Push] of each item in turn, collecting the errors returned. *)
Fixpoint push_all (items : list (K * V)) pq
  : M (KeyedPriorityQueue K V * list (option (error K))) :=
  match items with
  | [] => mret (pq, [])
  | (k, v) :: rest =>
      r ← Push pq k v;
      rs ← push_all rest r.1;
      mret (rs.1, r.2 :: rs.2)
  end.

(** [Pop] called [n] times, collecting the results returned. *)
Fixpoint pop_n (n : nat) pq : M (KeyedPriorityQueue K V * list (K * V * bool)) :=
  match n with
  | O => mret (pq, [])
  | S n' =>
      r ← Pop pq;
      rs ← pop_n n' r.1;
      mret (rs.1, r.2 :: rs.2)
  end.

(** Any two items with different keys have different priorities: one of
    the two values has priority over the other. *)
Definition distinct_priorities (f : V → V → bool) (items : list (K * V)) : Prop :=
  ∀ k1 v1 k2 v2, (k1, v1) ∈ items → (k2, v2) ∈ items → k1 ≠ k2 →
                 f v1 v2 = true ∨ f v2 v1 = true.

(** The value of one result of [Pop] has priority over that of another. *)
Definition before (f : V → V → bool) (x y : K * V * bool) : Prop :=
  f x.1.2 y.1.2 = true.

End Spec.

Arguments op : clear implicits.
Arguments OpPush {K V} k v.
Arguments OpPop {K V}.
Arguments OpUpdate {K V} k v.
Arguments OpRemove {K V} k.

(** ** A min-first queue of strings

    The queue of the package's tests: integer priorities, the smaller one
    first. *)

Module Demo.

(** [func(x, y int) bool { return x < y }] *)
Definition less : Z → Z → bool := Z.ltb.

Definition items : list (string * Z) :=
  [("fourth", 10); ("second", 8); ("third", 9); ("first", 6); ("last", 20)]%string.

Definition calls : list (op string Z) :=
  [OpPush "fourth" 10; OpPush "second" 8; OpPush "third" 9; OpPush "first" 6;
   OpPush "last" 20; OpPop; OpUpdate "last" 5; OpRemove "third"]%string.

Definition fresh : KeyedPriorityQueue string Z :=
  {| pm := []; im := ∅; vals := ∅; cmp := less |}.

(** The queue after [calls]. *)
Definition queue : KeyedPriorityQueue string Z :=
  match result (run calls fresh) with
  | Done pq => pq
  | _ => fresh
  end.

(** The queue holding A with 10, B with 8 and C with 9. *)
Definition abc : KeyedPriorityQueue string Z :=
  match result (push_all [("A", 10); ("B", 8); ("C", 9)]%string fresh) with
  | Done (pq, _) => pq
  | _ => fresh
  end.

(** The same queue after [Update("C", 1)]. *)
Definition abc_updated : KeyedPriorityQueue string Z :=
  match result (Update abc "C"%string 1) with
  | Done (pq, _) => pq
  | _ => fresh
  end.

End Demo.

(** * Properties *)

(** ** Integers *)

Lemma wrap_small z : GoInt.is_int z → GoInt.wrap z = z.
Proof. unfold_int. dlia. Qed.

Lemma leftChild_small i :
  0 <= i → 2 * i + 1 <= GoInt.max_int → leftChild i = 2 * i + 1.
Proof. unfold leftChild. unfold_int. dlia. Qed.

Lemma leftChild_overflow i :
  0 <= i <= GoInt.max_int → GoInt.max_int < 2 * i + 1 → leftChild i < 0.
Proof. unfold leftChild. unfold_int. dlia. Qed.

Lemma parent_up i : 0 < i <= GoInt.max_int → parent i = up i.
Proof. unfold parent, up. unfold_int. dlia. Qed.

Lemma up_bounds c : 0 < c → 0 <= up c < c.
Proof. unfold up. dlia. Qed.

Lemma up_children c i : 0 < c → up c = i ↔ c = 2 * i + 1 ∨ c = 2 * i + 2.
Proof. unfold up. dlia. Qed.

(** ** Computations *)

Lemma result_bind {A B} (m : M A) (f : A → M B) a :
  result m = Done a → result (m ≫= f) = result (f a).
Proof. intros E. unfold mbind, M_mbind, M_bind. by rewrite E. Qed.

Lemma slots_bind {A B} (m : M A) (f : A → M B) a :
  result m = Done a → slots (m ≫= f) = slots m ++ slots (f a).
Proof. intros E. unfold mbind, M_mbind, M_bind. by rewrite E. Qed.

Lemma bind_run {A B} l (a : A) (f : A → M B) :
  Run l (Done a) ≫= f = Run (l ++ slots (f a)) (result (f a)).
Proof. reflexivity. Qed.

Lemma bind_ret {A B} (a : A) (f : A → M B) : mret a ≫= f = f a.
Proof. unfold mret, M_mret, M_ret. rewrite bind_run. by destruct (f a). Qed.

(** ** Slices *)

Section SliceFacts.
Context {A : Type}.
Implicit Types (s : list A) (i c : Z).

Lemma slot_Some s i x : slot s i = Some x → 0 <= i < len s.
Proof.
  unfold slot, len. destruct (Z.leb_spec 0 i); [|done].
  intros E%lookup_lt_Some. lia.
Qed.

Lemma slot_is_Some s i : 0 <= i < len s → is_Some (slot s i).
Proof.
  unfold slot, len. intros Hi. destruct (Z.leb_spec 0 i); [|lia].
  apply lookup_lt_is_Some. lia.
Qed.

Lemma slot_None s i : ¬ (0 <= i < len s) → slot s i = None.
Proof.
  intros Hi. destruct (slot s i) eqn:E; [|done].
  by apply slot_Some in E.
Qed.

Lemma len_insert s (m : nat) x : len (<[m := x]> s) = len s.
Proof. unfold len. by rewrite length_insert. Qed.

Lemma slot_insert s i x c :
  0 <= i < len s →
  slot (<[Z.to_nat i := x]> s) c = if decide (c = i) then Some x else slot s c.
Proof.
  unfold slot, len. intros Hi. case_decide as E.
  - subst c. destruct (Z.leb_spec 0 i); [|lia].
    apply list_lookup_insert_eq. lia.
  - destruct (Z.leb_spec 0 c); [|done].
    apply list_lookup_insert_ne. lia.
Qed.

Lemma index_done s i x : slot s i = Some x → index s i = Run [i] (Done x).
Proof. unfold index. by intros ->. Qed.

Lemma assign_done s i x :
  0 <= i < len s → assign s i x = Run [i] (Done (<[Z.to_nat i := x]> s)).
Proof. intros [y E]%slot_is_Some. unfold assign. by rewrite E. Qed.

Lemma slot_take s n c :
  0 <= n → slot (take (Z.to_nat n) s) c = if decide (c < n) then slot s c else None.
Proof.
  unfold slot. intros Hn. destruct (Z.leb_spec 0 c).
  - case_decide.
    + apply lookup_take_lt. lia.
    + apply lookup_take_ge. lia.
  - by case_decide.
Qed.

Lemma slot_app s x c :
  slot (s ++ [x]) c =
    if decide (c = len s) then Some x else slot s c.
Proof.
  unfold slot, len. destruct (Z.leb_spec 0 c).
  - case_decide as E.
    + subst c. rewrite Nat2Z.id. by apply list_lookup_middle.
    + destruct (decide (c < Z.of_nat (length s))).
      * apply lookup_app_l. lia.
      * rewrite !lookup_ge_None_2; [done| lia |].
        rewrite length_app. simpl. lia.
  - case_decide; [lia|done].
Qed.

End SliceFacts.

(** ** The primitives [compare] and [swap] *)

Section Facts.
Context {K : Type} `{Countable K} {V : Type} `{Zero K} `{Zero V} `{Format K}.
Implicit Types (pq : KeyedPriorityQueue K V) (i j c n : Z) (k : K) (v : V).

Lemma compare_done pq i j :
  0 <= i < len (pm pq) → 0 <= j < len (pm pq) →
  compare pq i j = Run [i; j] (Done (cmp pq (sv pq i) (sv pq j))).
Proof.
  intros [ki Ei]%slot_is_Some [kj Ej]%slot_is_Some.
  unfold compare, sv. rewrite Ei, Ej.
  rewrite (index_done _ _ _ Ei), bind_run, (index_done _ _ _ Ej).
  reflexivity.
Qed.

Lemma exchange_eq pq i j ki kj :
  slot (pm pq) i = Some ki → slot (pm pq) j = Some kj →
  exchange pq i j =
    {| pm := <[Z.to_nat j := ki]> (<[Z.to_nat i := kj]> (pm pq));
       im := <[ki := j]> (<[kj := i]> (im pq));
       vals := vals pq; cmp := cmp pq |}.
Proof. unfold exchange. by intros -> ->. Qed.

Lemma swap_done pq i j :
  0 <= i < len (pm pq) → 0 <= j < len (pm pq) →
  swap pq i j = Run [j; i; i; j; i; j] (Done (exchange pq i j)).
Proof.
  intros Hi Hj.
  destruct (slot_is_Some _ _ Hi) as [ki Ei], (slot_is_Some _ _ Hj) as [kj Ej].
  rewrite (exchange_eq _ _ _ _ _ Ei Ej). unfold swap.
  rewrite (index_done _ _ _ Ej), bind_run, (index_done _ _ _ Ei), bind_run.
  rewrite (assign_done _ _ _ Hi), bind_run.
  rewrite assign_done by (by rewrite len_insert). rewrite bind_run.
  assert (slot (<[Z.to_nat j := ki]> (<[Z.to_nat i := kj]> (pm pq))) i = Some kj) as Ea.
  { rewrite slot_insert by (by rewrite len_insert). case_decide as E.
    - subst j. congruence.
    - rewrite slot_insert by done. by rewrite decide_True. }
  assert (slot (<[Z.to_nat j := ki]> (<[Z.to_nat i := kj]> (pm pq))) j = Some ki) as Eb.
  { rewrite slot_insert by (by rewrite len_insert). by rewrite decide_True. }
  rewrite (index_done _ _ _ Ea), bind_run, (index_done _ _ _ Eb).
  reflexivity.
Qed.

Lemma len_exchange pq i j : len (pm (exchange pq i j)) = len (pm pq).
Proof.
  unfold exchange. destruct (slot (pm pq) i), (slot (pm pq) j); try done.
  simpl. by rewrite !len_insert.
Qed.

Lemma vals_exchange pq i j : vals (exchange pq i j) = vals pq.
Proof. unfold exchange. by destruct (slot (pm pq) i), (slot (pm pq) j). Qed.

Lemma cmp_exchange pq i j : cmp (exchange pq i j) = cmp pq.
Proof. unfold exchange. by destruct (slot (pm pq) i), (slot (pm pq) j). Qed.

Lemma slot_exchange pq i j c :
  0 <= i < len (pm pq) → 0 <= j < len (pm pq) →
  slot (pm (exchange pq i j)) c =
    if decide (c = j) then slot (pm pq) i
    else if decide (c = i) then slot (pm pq) j
    else slot (pm pq) c.
Proof.
  intros Hi Hj.
  destruct (slot_is_Some _ _ Hi) as [ki Ei], (slot_is_Some _ _ Hj) as [kj Ej].
  rewrite (exchange_eq _ _ _ _ _ Ei Ej). simpl.
  rewrite slot_insert by (by rewrite len_insert).
  case_decide; [done|]. rewrite slot_insert by done.
  by case_decide.
Qed.

Lemma sv_exchange pq i j c :
  0 <= i < len (pm pq) → 0 <= j < len (pm pq) →
  sv (exchange pq i j) c =
    if decide (c = j) then sv pq i
    else if decide (c = i) then sv pq j
    else sv pq c.
Proof.
  intros Hi Hj. unfold sv.
  rewrite slot_exchange, vals_exchange by done.
  by repeat case_decide.
Qed.

Lemma better_child_range pq i n :
  2 * i + 1 < n →
  2 * i + 1 <= better_child pq i n <= 2 * i + 2 ∧ better_child pq i n < n.
Proof.
  intros Hl. unfold better_child.
  destruct (Z.ltb_spec (2 * i + 2) n); simpl; [|lia].
  destruct (cmp pq (sv pq (2 * i + 2)) (sv pq (2 * i + 1))); lia.
Qed.

End Facts.

(** ** The loops and their runs *)

Section Loops.
Context {K : Type} `{Countable K} {V : Type} `{Zero K} `{Zero V} `{Format K}.
Implicit Types (pq : KeyedPriorityQueue K V) (i j c n : Z) (k : K) (v : V).

Lemma swim_loop_swims fuel : ∀ pq i,
  0 <= i < len (pm pq) → i <= GoInt.max_int → (Z.to_nat i < fuel)%nat →
  ∃ pq', result (swim_loop fuel pq i) = Done pq' ∧ swims i pq pq'.
Proof.
  induction fuel as [|fuel IH]; intros pq i Hi Hmax Hfuel; [lia|].
  cbn [swim_loop]. destruct (Z.ltb_spec 0 i) as [Hpos|Hroot].
  - rewrite parent_up by lia. pose proof (up_bounds i Hpos) as Hup.
    rewrite compare_done by lia. rewrite bind_run. cbn [result].
    destruct (cmp pq (sv pq i) (sv pq (up i))) eqn:Ecmp.
    + rewrite swap_done by lia. rewrite bind_run. cbn [result].
      destruct (IH (exchange pq i (up i)) (up i)) as (pq' & E & Hrun);
        [rewrite len_exchange; lia | lia | lia |].
      exists pq'. split; [done|]. by apply swims_move.
    + exists pq. split; [done|]. by apply swims_stop.
  - exists pq. split; [done|]. by apply swims_root.
Qed.

Lemma swim_swims pq i :
  0 <= i < len (pm pq) → i <= GoInt.max_int →
  ∃ pq', result (swim pq i) = Done pq' ∧ swims i pq pq'.
Proof. intros. apply swim_loop_swims; [done|done|lia]. Qed.

Lemma sink_loop_sinks fuel : ∀ pq i n,
  0 <= i <= GoInt.max_int → n <= len (pm pq) → n <= GoInt.max_int →
  (Z.to_nat (n - i) < fuel)%nat →
  ∃ pq', result (sink_loop fuel pq i n) = Done pq' ∧ sinks n i pq pq' ∧
         Forall (λ a, 0 <= a < n) (slots (sink_loop fuel pq i n)).
Proof.
  induction fuel as [|fuel IH]; intros pq i n Hi Hn Hmax Hfuel; [lia|].
  cbn [sink_loop].
  destruct (Z_le_gt_dec (2 * i + 1) GoInt.max_int) as [Hfit|Hover].
  - rewrite leftChild_small by lia.
    destruct (Z.ltb_spec (2 * i + 1) n) as [Hl|Hl];
      [|exists pq; split_and!; [done|by apply sinks_leaf|by constructor]].
    destruct (Z.ltb_spec (2 * i + 1) 0) as [?|_]; [lia|].
    replace (GoInt.add (2 * i + 1) 1) with (2 * i + 2)
      by (unfold GoInt.add; rewrite wrap_small; [lia|unfold_int; lia]).
    set (jj := better_child pq i n).
    pose proof (better_child_range pq i n Hl) as Hjj. fold jj in Hjj.
    assert (∃ l, Forall (λ a, 0 <= a < n) l ∧
      (if 2 * i + 2 <? n then compare pq (2 * i + 2) (2 * i + 1) else mret false)
      = Run l (Done (bool_decide (jj = 2 * i + 2)))) as (l & Hl' & ->).
    { unfold jj, better_child. destruct (Z.ltb_spec (2 * i + 2) n); simpl.
      - rewrite compare_done by lia. eexists. split; [|f_equal; f_equal].
        + repeat constructor; lia.
        + destruct (cmp pq _ _); [by rewrite bool_decide_true|].
          rewrite bool_decide_false; [done|lia].
      - exists []. split; [constructor|]. rewrite bool_decide_false; [done|lia]. }
    rewrite bind_run.
    replace (if bool_decide (jj = 2 * i + 2) then 2 * i + 2 else 2 * i + 1) with jj
      by (case_bool_decide; lia).
    rewrite compare_done by lia. rewrite bind_run. cbn [result slots].
    destruct (cmp pq (sv pq jj) (sv pq i)) eqn:Ecmp; cbn [negb].
    + rewrite swap_done by lia. rewrite bind_run. cbn [result slots].
      destruct (IH (exchange pq i jj) jj n) as (pq' & E & Hrun & Hlog);
        [lia | rewrite len_exchange; lia | lia | lia |].
      exists pq'. split_and!; [done|by apply sinks_move|].
      rewrite !Forall_app. split_and!; [done| | |done]; repeat constructor; lia.
    + exists pq. split_and!; [done|by apply sinks_stop|].
      rewrite !Forall_app. split_and!; [done| |constructor]; repeat constructor; lia.
  - pose proof (leftChild_overflow i Hi ltac:(lia)) as Hneg.
    exists pq. destruct (Z.ltb_spec (leftChild i) n).
    + destruct (Z.ltb_spec (leftChild i) 0); [|lia].
      split_and!; [done|apply sinks_leaf; lia|constructor].
    + split_and!; [done|apply sinks_leaf; lia|constructor].
Qed.

Lemma sink_sinks pq i n :
  0 <= i <= GoInt.max_int → n <= len (pm pq) → n <= GoInt.max_int →
  ∃ pq', result (sink pq i n) = Done pq' ∧ sinks n i pq pq'.
Proof.
  intros Hi Hn Hmax.
  destruct (sink_loop_sinks (S (Z.to_nat n)) pq i n) as (pq' & ? & ? & _); eauto.
  lia.
Qed.

End Loops.

(** ** Strict weak orderings *)

Section Order.
Context {V : Type} (f : V → V → bool) (Hf : StrictWeak f).

Lemma sw_asym x y : f x y = true → f y x = false.
Proof.
  intros Hxy. destruct (f y x) eqn:Hyx; [|done].
  pose proof (sw_trans f Hf _ _ _ Hxy Hyx) as Hxx.
  by rewrite (sw_irrefl f Hf) in Hxx.
Qed.

Lemma sw_negtrans x y z : f x y = false → f y z = false → f x z = false.
Proof.
  intros Hxy Hyz. destruct (f x z) eqn:Hxz; [|done].
  assert (f y x = false) as Hyx.
  { destruct (f y x) eqn:E; [|done].
    by rewrite (sw_trans f Hf _ _ _ E Hxz) in Hyz. }
  assert (f z y = false) as Hzy.
  { destruct (f z y) eqn:E; [|done].
    by rewrite (sw_trans f Hf _ _ _ Hxz E) in Hxy. }
  destruct (sw_incomp f Hf x y z) as [Hxz' _]; [done|done|congruence].
Qed.

Lemma sw_below x y z : f x y = false → f z y = true → f x z = false.
Proof.
  intros Hxy Hzy. destruct (f x z) eqn:Hxz; [|done].
  by rewrite (sw_trans f Hf _ _ _ Hxz Hzy) in Hxy.
Qed.

End Order.

(** ** The heap property along the runs of the loops *)

Section Heap.
Context {K : Type} `{Countable K} {V : Type} `{Zero K} `{Zero V} `{Format K}.
Implicit Types (pq : KeyedPriorityQueue K V) (i j c n : Z) (k : K) (v : V).

Lemma up_ok_hole n i pq : up_ok n i pq → hole n i pq.
Proof. intros [Ho Hg]. split; [|done]. intros c ? ? ?. by apply Ho. Qed.

Lemma down_ok_hole n i pq : down_ok n i pq → hole n i pq.
Proof. intros [Ho Hg]. split; [|done]. intros c ? ? ?. by apply Ho. Qed.

Lemma heap_grand n i pq :
  StrictWeak (cmp pq) → heap_upto n pq → grand n i pq.
Proof.
  intros Hf Hh c Hi Hc Hup. pose proof (up_bounds c ltac:(lia)).
  eapply (sw_negtrans _ Hf); [apply (Hh c Hc)|]. rewrite Hup.
  apply (Hh i). lia.
Qed.

Lemma heap_up_ok n i pq :
  StrictWeak (cmp pq) → heap_upto n pq → up_ok n i pq.
Proof. intros Hf Hh. split; [|by apply heap_grand]. intros c ? _. by apply Hh. Qed.

Lemma heap_down_ok n i pq :
  StrictWeak (cmp pq) → heap_upto n pq → down_ok n i pq.
Proof. intros Hf Hh. split; [|by apply heap_grand]. intros c ? _. by apply Hh. Qed.

Lemma heap_upto_le n m pq : m <= n → heap_upto n pq → heap_upto m pq.
Proof. intros Hm Hh c Hc. apply Hh. lia. Qed.

(** One iteration of [swim] that moves the slot. *)
Lemma swim_step n i pq :
  StrictWeak (cmp pq) → 0 < i < n → n <= len (pm pq) →
  hole n i pq → cmp pq (sv pq i) (sv pq (up i)) = true →
  up_ok n (up i) (exchange pq i (up i)).
Proof.
  intros Hf Hi Hn [Ho Hg] Hcmp. pose proof (up_bounds i ltac:(lia)) as Hui.
  split.
  - intros c Hc Hne. pose proof (up_bounds c ltac:(lia)) as Huc.
    unfold ordered. rewrite cmp_exchange, !sv_exchange by lia.
    rewrite (decide_False (P := c = up i)) by done.
    destruct (decide (c = i)) as [->|Hci].
    + rewrite (decide_True (P := up i = up i)) by done.
      by apply (sw_asym _ Hf).
    + destruct (decide (up c = up i)) as [Hs|Hs].
      * apply (sw_below _ Hf _ (sv pq (up i))); [|done].
        rewrite <- Hs. apply Ho; [done|done|lia].
      * destruct (decide (up c = i)) as [Hch|Hch].
        -- apply Hg; [lia|done|done].
        -- by apply Ho.
  - intros c Hpos Hc Hup. pose proof (up_bounds c ltac:(lia)) as Huc.
    pose proof (up_bounds (up i) Hpos) as Huu.
    assert (ordered pq (up i)) as Hp by (apply Ho; lia).
    rewrite cmp_exchange, !sv_exchange by lia.
    rewrite (decide_False (P := c = up i)) by lia.
    rewrite (decide_False (P := up (up i) = up i)) by lia.
    rewrite (decide_False (P := up (up i) = i)) by lia.
    destruct (decide (c = i)) as [->|Hci]; [done|].
    apply (sw_negtrans _ Hf _ (sv pq (up i))); [|done].
    rewrite <- Hup. apply Ho; [done|done|lia].
Qed.

Lemma swims_cmp i pq pq' : swims i pq pq' → cmp pq' = cmp pq.
Proof. induction 1; [done|done|]. by rewrite IHswims, cmp_exchange. Qed.

Lemma swims_heap n i pq pq' :
  swims i pq pq' → StrictWeak (cmp pq) → 0 <= i < n → n <= len (pm pq) →
  up_ok n i pq → heap_upto n pq'.
Proof.
  induction 1 as [i pq Hroot|i pq Hpos Hcmp|i pq pq' Hpos Hcmp Hrun IH];
    intros Hf Hi Hn Hok.
  - intros c Hc. apply Hok; [done|lia].
  - intros c Hc. destruct (decide (c = i)) as [->|Hci]; [done|]. by apply Hok.
  - pose proof (up_bounds i Hpos). apply IH.
    + by rewrite cmp_exchange.
    + lia.
    + by rewrite len_exchange.
    + apply swim_step; [done|lia|done|by apply up_ok_hole|done].
Qed.

(** [swim] from a hole either leaves the queue as it is, orders it below
    [n] altogether, or both. *)
Lemma swims_hole n i pq pq' :
  swims i pq pq' → StrictWeak (cmp pq) → 0 <= i < n → n <= len (pm pq) →
  hole n i pq →
  down_ok n i pq' ∧ (pq' = pq ∨ heap_upto n pq').
Proof.
  intros Hrun Hf Hi Hn Hh.
  destruct Hrun as [i pq Hroot|i pq Hpos Hcmp|i pq pq' Hpos Hcmp Hrun].
  - split; [|by left]. destruct Hh as [Ho Hg]. split; [|done].
    intros c Hc Hup. apply Ho; [done|lia|done].
  - split; [|by left]. destruct Hh as [Ho Hg]. split; [|done].
    intros c Hc Hup. destruct (decide (c = i)) as [->|Hci]; [done|]. by apply Ho.
  - pose proof (up_bounds i Hpos).
    assert (heap_upto n pq') as Hheap.
    { eapply swims_heap; [done|by rewrite cmp_exchange|lia|by rewrite len_exchange|].
      apply swim_step; [done|lia|done|done|done]. }
    split; [|by right]. apply heap_down_ok; [|done].
    by rewrite (swims_cmp _ _ _ Hrun), cmp_exchange.
Qed.

(** The slot that [sink] compares with [i] is a child of [i] below [n] over
    which no child of [i] has priority. *)
Lemma better_child_spec n i pq :
  StrictWeak (cmp pq) → 0 <= i → 2 * i + 1 < n →
  2 * i + 1 <= better_child pq i n <= 2 * i + 2 ∧ better_child pq i n < n ∧
  ∀ c, 0 < c < n → up c = i →
       cmp pq (sv pq c) (sv pq (better_child pq i n)) = false.
Proof.
  intros Hf Hi Hl. unfold better_child.
  destruct (Z.ltb_spec (2 * i + 2) n) as [Hr|Hr]; simpl.
  - destruct (cmp pq (sv pq (2 * i + 2)) (sv pq (2 * i + 1))) eqn:E.
    + split_and!; [lia|lia|lia|]. intros c Hc Hup. apply up_children in Hup; [|lia]. destruct Hup as [->| ->].
      * by apply (sw_asym _ Hf).
      * apply (sw_irrefl _ Hf).
    + split_and!; [lia|lia|lia|]. intros c Hc Hup. apply up_children in Hup; [|lia]. destruct Hup as [->| ->].
      * apply (sw_irrefl _ Hf).
      * done.
  - split_and!; [lia|lia|lia|]. intros c Hc Hup. apply up_children in Hup; [|lia]. destruct Hup as [->| ->]; [|lia].
    apply (sw_irrefl _ Hf).
Qed.

(** One iteration of [sink] that moves the slot. *)
Lemma sink_step n i pq :
  StrictWeak (cmp pq) → 0 <= i → 2 * i + 1 < n → n <= len (pm pq) →
  hole n i pq →
  cmp pq (sv pq (better_child pq i n)) (sv pq i) = true →
  down_ok n (better_child pq i n) (exchange pq i (better_child pq i n)).
Proof.
  intros Hf Hi Hl Hn [Ho Hg].
  destruct (better_child_spec n i pq Hf Hi Hl) as (Hj & Hjn & Hbest).
  set (j := better_child pq i n) in *. intros Hcmp.
  assert (up j = i) as Huj by (apply up_children; lia).
  split.
  - intros c Hc Hne. pose proof (up_bounds c ltac:(lia)) as Huc.
    unfold ordered. rewrite cmp_exchange, !sv_exchange by lia.
    rewrite (decide_False (P := up c = j)) by done.
    destruct (decide (c = j)) as [->|Hcj].
    + rewrite Huj, (decide_True (P := i = i)) by done. by apply (sw_asym _ Hf).
    + destruct (decide (c = i)) as [->|Hci].
      * rewrite (decide_False (P := up i = i)) by lia.
        apply Hg; [lia|lia|done].
      * destruct (decide (up c = i)) as [Hch|Hch].
        -- by apply Hbest.
        -- by apply Ho.
  - intros c Hpos Hc Hup. pose proof (up_bounds c ltac:(lia)) as Huc.
    rewrite cmp_exchange, !sv_exchange by lia.
    rewrite (decide_False (P := c = j)) by lia.
    rewrite (decide_False (P := c = i)) by lia.
    rewrite Huj, (decide_False (P := i = j)) by lia.
    rewrite (decide_True (P := i = i)) by done.
    rewrite <- Hup. apply Ho; [done|lia|lia].
Qed.

(** An iteration of [sink] that stops has found the children in order. *)
Lemma sink_stop n i pq :
  StrictWeak (cmp pq) → 0 <= i → 2 * i + 1 < n →
  cmp pq (sv pq (better_child pq i n)) (sv pq i) = false →
  ∀ c, 0 < c < n → up c = i → ordered pq c.
Proof.
  intros Hf Hi Hl Hcmp c Hc Hup.
  destruct (better_child_spec n i pq Hf Hi Hl) as (Hj & Hjn & Hbest).
  unfold ordered. rewrite Hup.
  apply (sw_negtrans _ Hf _ (sv pq (better_child pq i n))); [|done].
  by apply Hbest.
Qed.

Lemma sinks_cmp n i pq pq' : sinks n i pq pq' → cmp pq' = cmp pq.
Proof. induction 1; [done|done|]. by rewrite IHsinks, cmp_exchange. Qed.

Lemma sinks_heap n i pq pq' :
  sinks n i pq pq' → StrictWeak (cmp pq) → 0 <= i → n <= len (pm pq) →
  down_ok n i pq → heap_upto n pq'.
Proof.
  induction 1 as [i pq Hleaf|i pq Hl Hcmp|i pq pq' Hl Hcmp Hrun IH];
    intros Hf Hi Hn Hok.
  - intros c Hc. apply Hok; [done|]. intros [->| ->]%up_children; lia.
  - intros c Hc. destruct (decide (up c = i)) as [Hup|Hup].
    + by apply (sink_stop n i).
    + by apply Hok.
  - destruct (better_child_spec n i pq Hf Hi Hl) as (Hj & Hjn & _).
    apply IH.
    + by rewrite cmp_exchange.
    + lia.
    + by rewrite len_exchange.
    + apply sink_step; [done|done|done|done|by apply down_ok_hole|done].
Qed.

(** [sink] from a hole either leaves the queue as it is, orders it below
    [n] altogether, or both. *)
Lemma sinks_hole n i pq pq' :
  sinks n i pq pq' → StrictWeak (cmp pq) → 0 <= i → n <= len (pm pq) →
  hole n i pq →
  up_ok n i pq' ∧ (pq' = pq ∨ heap_upto n pq').
Proof.
  intros Hrun Hf Hi Hn Hh.
  destruct Hrun as [i pq Hleaf|i pq Hl Hcmp|i pq pq' Hl Hcmp Hrun].
  - split; [|by left]. destruct Hh as [Ho Hg]. split; [|done].
    intros c Hc Hne. apply Ho; [done|done|].
    intros [->| ->]%up_children; lia.
  - split; [|by left]. destruct Hh as [Ho Hg]. split; [|done].
    intros c Hc Hne. destruct (decide (up c = i)) as [Hup|Hup].
    + by apply (sink_stop n i).
    + by apply Ho.
  - destruct (better_child_spec n i pq Hf Hi Hl) as (Hj & Hjn & _).
    assert (heap_upto n pq') as Hheap.
    { eapply sinks_heap; [done|by rewrite cmp_exchange|lia|by rewrite len_exchange|].
      by apply sink_step. }
    split; [|by right]. apply heap_up_ok; [|done].
    by rewrite (sinks_cmp _ _ _ _ Hrun), cmp_exchange.
Qed.

(** On an ordered queue [sink] changes nothing. *)
Lemma sinks_ordered n i pq pq' :
  sinks n i pq pq' → StrictWeak (cmp pq) → 0 <= i →
  heap_upto n pq → pq' = pq.
Proof.
  intros Hrun Hf Hi Hh.
  destruct Hrun as [i pq Hleaf|i pq Hl Hcmp|i pq pq' Hl Hcmp Hrun]; [done|done|].
  destruct (better_child_spec n i pq Hf Hi Hl) as (Hj & Hjn & _).
  assert (ordered pq (better_child pq i n)) as Ho by (apply Hh; lia).
  unfold ordered in Ho.
  replace (up (better_child pq i n)) with i in Ho
    by (symmetry; apply up_children; lia).
  congruence.
Qed.

End Heap.

(** ** The three containers along the runs of the loops *)

Section Containers.
Context {K : Type} `{Countable K} {V : Type} `{Zero K} `{Zero V} `{Format K}.
Implicit Types (pq : KeyedPriorityQueue K V) (i j c n : Z) (k : K) (v : V).

Lemma inverse_inj pq c c' k :
  inverse pq → slot (pm pq) c = Some k → slot (pm pq) c' = Some k → c = c'.
Proof. intros Hinv E%Hinv E'%Hinv. congruence. Qed.

Lemma exchange_inverse pq i j :
  inverse pq → 0 <= i < len (pm pq) → 0 <= j < len (pm pq) →
  inverse (exchange pq i j).
Proof.
  intros Hinv Hi Hj c k. rewrite slot_exchange by done.
  destruct (slot_is_Some _ _ Hi) as [ki Ei], (slot_is_Some _ _ Hj) as [kj Ej].
  rewrite (exchange_eq _ _ _ _ _ Ei Ej). cbn [im]. rewrite !lookup_insert.
  pose proof (inverse_inj pq i j) as Hij.
  pose proof (proj1 (Hinv i ki) Ei) as Hi'.
  pose proof (proj1 (Hinv j kj) Ej) as Hj'.
  pose proof (Hinv c k) as Hck.
  repeat case_decide; simplify_eq; rewrite ?Ei, ?Ej;
    (split; intros; simplify_eq; intuition congruence).
Qed.

Lemma exchange_same_keys pq i j :
  inverse pq → same_keys pq → same_keys (exchange pq i j).
Proof.
  intros Hinv Hkeys k. unfold exchange.
  destruct (slot (pm pq) i) as [ki|] eqn:Ei; [|done].
  destruct (slot (pm pq) j) as [kj|] eqn:Ej; [|done].
  cbn [vals im]. rewrite (Hkeys k), !lookup_insert.
  apply Hinv in Ei, Ej.
  repeat case_decide; simplify_eq; rewrite ?Ei, ?Ej; intuition eauto.
Qed.

Lemma swims_frame i pq pq' :
  swims i pq pq' → 0 <= i < len (pm pq) →
  vals pq' = vals pq ∧ len (pm pq') = len (pm pq) ∧
  (inverse pq → inverse pq') ∧
  (inverse pq → same_keys pq → same_keys pq') ∧
  (∀ c, i < c → slot (pm pq') c = slot (pm pq) c).
Proof.
  induction 1 as [i pq Hroot|i pq Hpos Hcmp|i pq pq' Hpos Hcmp Hrun IH];
    intros Hi; [done|done|].
  pose proof (up_bounds i Hpos).
  destruct IH as (Hv & Hlen & Hinv & Hkeys & Hslot); [rewrite len_exchange; lia|].
  rewrite Hv, Hlen, vals_exchange, len_exchange. split_and!; [done|done|..].
  - intros ?. apply Hinv, exchange_inverse; [done|lia|lia].
  - intros ? ?. apply Hkeys.
    + apply exchange_inverse; [done|lia|lia].
    + by apply exchange_same_keys.
  - intros c Hc. rewrite Hslot by lia. rewrite slot_exchange by lia.
    rewrite !decide_False; [done|lia|lia].
Qed.

Lemma sinks_frame n i pq pq' :
  sinks n i pq pq' → 0 <= i → n <= len (pm pq) →
  vals pq' = vals pq ∧ len (pm pq') = len (pm pq) ∧
  (inverse pq → inverse pq') ∧
  (inverse pq → same_keys pq → same_keys pq') ∧
  (∀ c, c < i ∨ n <= c → slot (pm pq') c = slot (pm pq) c).
Proof.
  induction 1 as [i pq Hleaf|i pq Hl Hcmp|i pq pq' Hl Hcmp Hrun IH];
    intros Hi Hn; [done|done|].
  destruct (better_child_range pq i n Hl) as [Hj Hjn].
  destruct IH as (Hv & Hlen & Hinv & Hkeys & Hslot); [lia|rewrite len_exchange; lia|].
  rewrite Hv, Hlen, vals_exchange, len_exchange. split_and!; [done|done|..].
  - intros ?. apply Hinv, exchange_inverse; [done|lia|lia].
  - intros ? ?. apply Hkeys.
    + apply exchange_inverse; [done|lia|lia].
    + by apply exchange_same_keys.
  - intros c Hc. rewrite Hslot by lia. rewrite slot_exchange by lia.
    rewrite !decide_False; [done|lia|lia].
Qed.

(** The position slice lists every key of [im] once. *)
Lemma inverse_NoDup pq : inverse pq → NoDup (pm pq).
Proof.
  intros Hinv. apply NoDup_alt. intros a b k Ea Eb.
  assert (slot (pm pq) (Z.of_nat a) = Some k) as Ea'.
  { unfold slot. destruct (Z.leb_spec 0 (Z.of_nat a)); [|lia]. by rewrite Nat2Z.id. }
  assert (slot (pm pq) (Z.of_nat b) = Some k) as Eb'.
  { unfold slot. destruct (Z.leb_spec 0 (Z.of_nat b)); [|lia]. by rewrite Nat2Z.id. }
  pose proof (inverse_inj _ _ _ _ Hinv Ea' Eb'). lia.
Qed.

Lemma elem_of_slot (s : list K) k : k ∈ s ↔ ∃ i, slot s i = Some k.
Proof.
  rewrite list_elem_of_lookup. split.
  - intros [a Ea]. exists (Z.of_nat a). unfold slot.
    destruct (Z.leb_spec 0 (Z.of_nat a)); [|lia]. by rewrite Nat2Z.id.
  - intros [i Ei]. exists (Z.to_nat i). unfold slot in Ei.
    by destruct (0 <=? i).
Qed.

Lemma inverse_dom pq : inverse pq → dom (im pq) = list_to_set (pm pq).
Proof.
  intros Hinv. apply set_eq. intros k.
  rewrite elem_of_dom, elem_of_list_to_set, elem_of_slot. split.
  - intros [i Ei]. exists i. by apply Hinv.
  - intros [i Ei]. exists i. by apply Hinv.
Qed.

Lemma same_keys_dom pq : same_keys pq → dom (vals pq) = dom (im pq).
Proof. intros Hkeys. apply set_eq. intros k. rewrite !elem_of_dom. apply Hkeys. Qed.

Lemma inverse_size pq : inverse pq → Z.of_nat (size (im pq)) = len (pm pq).
Proof.
  intros Hinv. unfold len. f_equal.
  rewrite <- size_dom, (inverse_dom _ Hinv).
  apply size_list_to_set, inverse_NoDup, Hinv.
Qed.

Lemma same_keys_size pq :
  inverse pq → same_keys pq → Z.of_nat (size (vals pq)) = len (pm pq).
Proof.
  intros Hinv Hkeys. rewrite <- (inverse_size _ Hinv). f_equal.
  by rewrite <- !size_dom, (same_keys_dom _ Hkeys).
Qed.

End Containers.

(** ** The methods *)

Section Methods.
Context {K : Type} `{Countable K} {V : Type} `{Zero K} `{Zero V} `{Format K}.
Implicit Types (pq : KeyedPriorityQueue K V) (i j c n : Z) (k : K) (v : V).

Lemma len_nonneg (s : list K) : 0 <= len s.
Proof. unfold len. lia. Qed.

Lemma len_app (s : list K) k : len (s ++ [k]) = len s + 1.
Proof. unfold len. rewrite length_app. simpl. lia. Qed.

Lemma len_take (s : list K) n : 0 <= n <= len s → len (take (Z.to_nat n) s) = n.
Proof. unfold len. intros Hn. rewrite length_take. lia. Qed.

Lemma sub_one n : 0 < n <= GoInt.max_int → GoInt.sub n 1 = n - 1.
Proof. intros Hn. apply wrap_small. unfold_int. lia. Qed.

(** The value in a slot depends on the key there and on its value only. *)
Lemma sv_agree pq pq' c k :
  slot (pm pq) c = Some k → slot (pm pq') c = Some k →
  vals pq' !! k = vals pq !! k → sv pq' c = sv pq c.
Proof. unfold sv, value_of. by intros -> -> ->. Qed.

Lemma paired_slot pq k i : paired pq → im pq !! k = Some i →
  slot (pm pq) i = Some k ∧ 0 <= i < len (pm pq).
Proof.
  intros Hp E. apply (p_inverse _ Hp) in E. split; [done|]. by apply slot_Some in E.
Qed.

Lemma paired_value pq k i : paired pq → im pq !! k = Some i →
  vals pq !! k = Some (value_of (vals pq) k).
Proof.
  intros Hp E. destruct (proj2 (p_keys _ Hp k)) as [v Ev]; [by eexists|].
  unfold value_of. by rewrite Ev.
Qed.

(** *** Peek, PeekKey and PeekValue *)

Lemma Peek_nonempty pq k :
  slot (pm pq) 0 = Some k →
  Peek pq = Run [0; 0] (Done (k, value_of (vals pq) k, true)).
Proof.
  intros Ek. pose proof (slot_Some _ _ _ Ek). unfold Peek.
  destruct (Z.eqb_spec (len (pm pq)) 0) as [?|_]; [lia|].
  by rewrite (index_done _ _ _ Ek).
Qed.

Lemma PeekKey_nonempty pq k :
  slot (pm pq) 0 = Some k → PeekKey pq = Run [0] (Done (k, true)).
Proof.
  intros Ek. pose proof (slot_Some _ _ _ Ek). unfold PeekKey.
  destruct (Z.eqb_spec (len (pm pq)) 0) as [?|_]; [lia|].
  by rewrite (index_done _ _ _ Ek).
Qed.

Lemma PeekValue_nonempty pq k :
  slot (pm pq) 0 = Some k →
  PeekValue pq = Run [0] (Done (value_of (vals pq) k, true)).
Proof.
  intros Ek. pose proof (slot_Some _ _ _ Ek). unfold PeekValue.
  destruct (Z.eqb_spec (len (pm pq)) 0) as [?|_]; [lia|].
  by rewrite (index_done _ _ _ Ek).
Qed.

(** *** Push *)

Lemma Push_present pq k v i :
  im pq !! k = Some i →
  Push pq k v = Run [] (Done (pq, Some (newKeyAlreadyExistsError k))).
Proof. unfold Push. by intros ->. Qed.

Lemma Push_full pq k v :
  im pq !! k = None → GoInt.max_int <= len (pm pq) →
  result (Push pq k v) = Panic LenOutOfRange.
Proof.
  intros E Hlen. unfold Push, append. rewrite E.
  by destruct (Z.ltb_spec (len (pm pq)) GoInt.max_int); [lia|].
Qed.

Lemma Push_fresh pq k v :
  paired pq → im pq !! k = None → len (pm pq) < GoInt.max_int →
  ∃ pq', result (Push pq k v) = Done (pq', None) ∧ paired pq' ∧
         vals pq' = <[k := v]> (vals pq) ∧ cmp pq' = cmp pq ∧
         len (pm pq') = len (pm pq) + 1 ∧
         (StrictWeak (cmp pq) → heap_upto (len (pm pq)) pq →
          heap_upto (len (pm pq')) pq').
Proof.
  intros Hp Enone Hlen. unfold Push, append. rewrite Enone.
  destruct (Z.ltb_spec (len (pm pq)) GoInt.max_int); [|lia].
  rewrite bind_ret. pose proof (len_nonneg (pm pq)) as Hn.
  set (n := len (pm pq)) in *.
  set (pq1 := {| pm := pm pq ++ [k]; im := <[k := n]> (im pq);
                 vals := <[k := v]> (vals pq); cmp := cmp pq |}).
  assert (len (pm pq1) = n + 1) as Hlen1 by apply len_app.
  destruct (swim_swims pq1 n) as (pq' & E & Hrun); [lia|lia|].
  destruct (swims_frame _ _ _ Hrun) as (Hv & Hl' & Hinv' & Hkeys' & _); [lia|].
  assert (inverse pq1) as Hinv1.
  { intros c k'. cbn [pq1 pm im]. rewrite slot_app, lookup_insert.
    pose proof (p_inverse _ Hp c k') as Hck. fold n.
    repeat case_decide; simplify_eq.
    - done.
    - split; [congruence|]. intros E'%(p_inverse _ Hp)%slot_Some. lia.
    - split; [|congruence]. intros E'%(p_inverse _ Hp). congruence.
    - done. }
  assert (same_keys pq1) as Hkeys1.
  { intros k'. cbn [pq1 vals im]. rewrite !lookup_insert.
    case_decide; [by split; eauto|]. apply (p_keys _ Hp). }
  exists pq'. rewrite (result_bind _ _ _ E). split_and!.
  - done.
  - split; [lia|by apply Hinv'|by apply Hkeys'].
  - by rewrite Hv.
  - by rewrite (swims_cmp _ _ _ Hrun).
  - lia.
  - intros Hf Hh. rewrite Hl', Hlen1.
    eapply swims_heap; [done|done|lia|lia|].
    assert (∀ c, 0 <= c < n → sv pq1 c = sv pq c) as Hsv.
    { intros c Hc. destruct (slot_is_Some (pm pq) c Hc) as [k' Ek'].
      apply (sv_agree _ _ _ k'); [done| |].
      - cbn [pq1 pm]. rewrite slot_app. fold n. by rewrite decide_False by lia.
      - cbn [pq1 vals]. apply lookup_insert_ne. intros ->.
        apply (p_inverse _ Hp) in Ek'. congruence. }
    split.
    + intros c Hc Hne. pose proof (up_bounds c ltac:(lia)).
      unfold ordered. cbn [pq1 cmp]. rewrite !Hsv by lia. apply Hh. lia.
    + intros c _ Hc [->| ->]%up_children; lia.
Qed.

(** *** Dropping the last slot *)

Lemma drop_last pq k n :
  paired pq → len (pm pq) = n + 1 → 0 <= n → slot (pm pq) n = Some k →
  let pq' := {| pm := take (Z.to_nat n) (pm pq); im := delete k (im pq);
                vals := delete k (vals pq); cmp := cmp pq |} in
  paired pq' ∧ len (pm pq') = n ∧ (heap_upto n pq → heap_upto n pq').
Proof.
  intros Hp Hlen Hn Ek pq'. pose proof (p_len _ Hp).
  assert (len (pm pq') = n) as Hlen' by (apply len_take; lia).
  split_and!; [split| |].
  - lia.
  - intros c k'. cbn [pq' pm im]. rewrite slot_take, lookup_delete by done.
    pose proof (p_inverse _ Hp c k') as Hck.
    pose proof (proj1 (p_inverse _ Hp n k) Ek) as Hnk.
    repeat case_decide; simplify_eq.
    + split; [|done]. intros E'%(p_inverse _ Hp). assert (c = n) by congruence. lia.
    + done.
    + by split.
    + split; [done|]. intros E'%Hck. pose proof (slot_Some _ _ _ E').
      assert (c = n) as -> by lia. congruence.
  - intros k'. cbn [pq' vals im]. rewrite !lookup_delete.
    case_decide; [by split; intros []|]. apply (p_keys _ Hp).
  - done.
  - intros Hh c Hc. pose proof (up_bounds c ltac:(lia)).
    assert (∀ a, 0 <= a < n → sv pq' a = sv pq a) as Hsv.
    { intros a Ha. destruct (slot_is_Some (pm pq) a ltac:(lia)) as [k' Ek'].
      apply (sv_agree _ _ _ k'); [done| |].
      - cbn [pq' pm]. rewrite slot_take by done. by rewrite decide_True by lia.
      - cbn [pq' vals]. apply lookup_delete_ne. intros ->.
        pose proof (inverse_inj _ _ _ _ (p_inverse _ Hp) Ek Ek'). lia. }
    unfold ordered. cbn [pq' cmp]. rewrite !Hsv by lia. by apply Hh.
Qed.

(** *** Pop *)

Lemma Pop_empty pq :
  len (pm pq) = 0 → Pop pq = Run [] (Done (pq, (zero, zero, false))).
Proof. unfold Pop. by intros ->. Qed.

Lemma Pop_nonempty pq :
  paired pq → 0 < len (pm pq) →
  ∃ pq' k v, result (Pop pq) = Done (pq', (k, v, true)) ∧ paired pq' ∧
    slot (pm pq) 0 = Some k ∧ vals pq !! k = Some v ∧
    vals pq' = delete k (vals pq) ∧ cmp pq' = cmp pq ∧
    len (pm pq') = len (pm pq) - 1 ∧
    (StrictWeak (cmp pq) → heap_upto (len (pm pq)) pq →
     heap_upto (len (pm pq')) pq').
Proof.
  intros Hp Hlen. pose proof (p_len _ Hp). unfold Pop.
  destruct (Z.eqb_spec (len (pm pq)) 0) as [?|_]; [lia|].
  rewrite sub_one by lia. set (n := len (pm pq) - 1).
  destruct (slot_is_Some (pm pq) 0) as [k Ek]; [lia|].
  rewrite (index_done _ _ _ Ek), bind_run. cbn [result].
  rewrite swap_done by lia. rewrite bind_run. cbn [result].
  set (pq1 := exchange pq 0 n).
  assert (len (pm pq1) = n + 1) as Hlen1 by (unfold pq1; rewrite len_exchange; lia).
  destruct (sink_sinks pq1 0 n) as (pq2 & E & Hrun); [unfold_int; lia|lia|lia|].
  destruct (sinks_frame _ _ _ _ Hrun) as (Hv & Hl2 & Hinv2 & Hkeys2 & Hslot);
    [lia|lia|].
  assert (inverse pq1) as Hinv1 by (apply exchange_inverse; [apply Hp|lia|lia]).
  assert (same_keys pq1) as Hkeys1 by (apply exchange_same_keys; apply Hp).
  assert (paired pq2) as Hp2 by (split; [lia|by apply Hinv2|by apply Hkeys2]).
  assert (slot (pm pq2) n = Some k) as Ek2.
  { rewrite Hslot by lia. unfold pq1. rewrite slot_exchange by lia.
    by rewrite decide_True. }
  rewrite (result_bind _ _ _ E).
  unfold slice_to. destruct (Z.leb_spec 0 n); [|lia].
  destruct (Z.leb_spec n (len (pm pq2))); [|lia]. cbn [andb]. rewrite bind_ret.
  destruct (drop_last pq2 k n) as (Hp' & Hlen' & Hheap'); [done|lia|lia|done|].
  eexists _, k, _. split_and!.
  - reflexivity.
  - done.
  - done.
  - by apply (paired_value _ _ 0), Hp.
  - cbn [vals]. rewrite Hv. unfold pq1. by rewrite vals_exchange.
  - cbn [cmp]. rewrite (sinks_cmp _ _ _ _ Hrun). unfold pq1. by rewrite cmp_exchange.
  - rewrite Hlen'. done.
  - intros Hf Hh. rewrite Hlen'. apply Hheap'.
    eapply sinks_heap; [done|by unfold pq1; rewrite cmp_exchange|lia|lia|].
    split; [|intros c ?; lia].
    intros c Hc Hup. pose proof (up_bounds c ltac:(lia)).
    unfold ordered, pq1. rewrite cmp_exchange, !sv_exchange by lia.
    rewrite !decide_False by lia. apply Hh. lia.
Qed.

(** *** Update *)

Lemma Update_absent pq k v :
  im pq !! k = None →
  Update pq k v = Run [] (Done (pq, Some (newKeyNotFoundError k))).
Proof. unfold Update. by intros ->. Qed.

Lemma Update_present pq k v i :
  paired pq → im pq !! k = Some i →
  let pq0 := {| pm := pm pq; im := im pq; vals := <[k := v]> (vals pq);
                cmp := cmp pq |} in
  ∃ pq1 pq2,
    result (swim pq0 i) = Done pq1 ∧
    result (sink pq1 i (Z.of_nat (size (vals pq1)))) = Done pq2 ∧
    result (Update pq k v) = Done (pq2, None) ∧ paired pq2 ∧
    vals pq2 = <[k := v]> (vals pq) ∧ cmp pq2 = cmp pq ∧
    len (pm pq2) = len (pm pq) ∧
    (StrictWeak (cmp pq) → heap_upto (len (pm pq)) pq →
     heap_upto (len (pm pq2)) pq2 ∧ (pq1 = pq0 ∨ pq2 = pq1)).
Proof.
  intros Hp Ei pq0. pose proof (p_len _ Hp).
  destruct (paired_slot _ _ _ Hp Ei) as [Ek Hi].
  set (n := len (pm pq)) in *.
  assert (paired pq0) as Hp0.
  { split; [done|apply Hp|]. intros k'. cbn [pq0 vals im]. rewrite lookup_insert.
    case_decide; [|apply (p_keys _ Hp)]. subst k'. rewrite Ei. by split; eauto. }
  destruct (swim_swims pq0 i) as (pq1 & E1 & Hrun1); [done|lia|].
  destruct (swims_frame _ _ _ Hrun1) as (Hv1 & Hl1 & Hinv1 & Hkeys1 & _); [done|].
  assert (paired pq1) as Hp1.
  { split; [cbn [pq0 pm] in Hl1; lia|apply Hinv1, Hp0|apply Hkeys1; apply Hp0]. }
  assert (len (pm pq1) = n) as Hn1 by done.
  destruct (sink_sinks pq1 i n) as (pq2 & E2 & Hrun2); [lia|lia|lia|].
  destruct (sinks_frame _ _ _ _ Hrun2) as (Hv2 & Hl2 & Hinv2 & Hkeys2 & _);
    [lia|lia|].
  assert (Z.of_nat (size (vals pq1)) = n) as Hsize
    by (rewrite (same_keys_size pq1) by apply Hp1; done).
  exists pq1, pq2. split_and!.
  - done.
  - by rewrite Hsize.
  - unfold Update. rewrite Ei. fold pq0. rewrite (result_bind _ _ _ E1).
    rewrite Hsize. by rewrite (result_bind _ _ _ E2).
  - split; [lia|apply Hinv2, Hp1|apply Hkeys2; apply Hp1].
  - by rewrite Hv2, Hv1.
  - by rewrite (sinks_cmp _ _ _ _ Hrun2), (swims_cmp _ _ _ Hrun1).
  - lia.
  - intros Hf Hh.
    assert (∀ c, 0 <= c < n → c ≠ i → sv pq0 c = sv pq c) as Hsv.
    { intros c Hc Hne. destruct (slot_is_Some (pm pq) c Hc) as [k' Ek'].
      apply (sv_agree _ _ _ k'); [done|done|].
      cbn [pq0 vals]. apply lookup_insert_ne. intros ->.
      by pose proof (inverse_inj _ _ _ _ (p_inverse _ Hp) Ek Ek'). }
    assert (hole n i pq0) as Hhole.
    { split.
      - intros c Hc Hne Hup. pose proof (up_bounds c ltac:(lia)).
        unfold ordered. cbn [pq0 cmp]. rewrite !Hsv by lia. by apply Hh.
      - intros c Hpos Hc Hup. pose proof (up_bounds c ltac:(lia)).
        pose proof (up_bounds i Hpos).
        cbn [pq0 cmp]. rewrite !Hsv by lia. by apply (heap_grand n i pq). }
    destruct (swims_hole n _ _ _ Hrun1) as [Hdown Hcase]; [done|done|done|done|].
    assert (StrictWeak (cmp pq1)) as Hf1 by (by rewrite (swims_cmp _ _ _ Hrun1)).
    split.
    + rewrite Hl2, Hn1. eapply sinks_heap; [done|done|lia|lia|done].
    + destruct Hcase as [->|Hheap]; [by left|right].
      eapply sinks_ordered; [done|done|lia|done].
Qed.

(** *** Remove *)

Lemma Remove_absent pq k : im pq !! k = None → Remove pq k = Run [] (Done pq).
Proof. unfold Remove. by intros ->. Qed.

Lemma Remove_present pq k i :
  paired pq → im pq !! k = Some i →
  ∃ pq', result (Remove pq k) = Done pq' ∧ paired pq' ∧
    vals pq' = delete k (vals pq) ∧ cmp pq' = cmp pq ∧
    len (pm pq') = len (pm pq) - 1 ∧
    (StrictWeak (cmp pq) → heap_upto (len (pm pq)) pq →
     heap_upto (len (pm pq')) pq').
Proof.
  intros Hp Ei. pose proof (p_len _ Hp).
  destruct (paired_slot _ _ _ Hp Ei) as [Ek Hi].
  unfold Remove. rewrite Ei, sub_one by lia. set (n := len (pm pq) - 1).
  assert (∃ pq3, result (if i =? n then mret pq
                         else pq1 ← swap pq i n; pq2 ← sink pq1 i n; swim pq2 i)
                 = Done pq3 ∧
            paired pq3 ∧ len (pm pq3) = n + 1 ∧ slot (pm pq3) n = Some k ∧
            vals pq3 = vals pq ∧ cmp pq3 = cmp pq ∧
            (StrictWeak (cmp pq) → heap_upto (len (pm pq)) pq → heap_upto n pq3))
    as (pq3 & E3 & Hp3 & Hlen3 & Ek3 & Hv3 & Hc3 & Hheap3).
  { destruct (Z.eqb_spec i n) as [->|Hne].
    - exists pq. split_and!; [done|done|lia|done|done|done|].
      intros _. apply heap_upto_le. lia.
    - rewrite swap_done by lia. rewrite bind_run. cbn [result].
      set (pq1 := exchange pq i n).
      assert (len (pm pq1) = n + 1) as Hlen1
        by (unfold pq1; rewrite len_exchange; lia).
      destruct (sink_sinks pq1 i n) as (pq2 & E2 & Hrun2); [lia|lia|lia|].
      destruct (sinks_frame _ _ _ _ Hrun2) as (Hv2 & Hl2 & Hinv2 & Hkeys2 & Hs2);
        [lia|lia|].
      destruct (swim_swims pq2 i) as (pq3 & E3 & Hrun3); [lia|lia|].
      destruct (swims_frame _ _ _ Hrun3) as (Hv3 & Hl3 & Hinv3 & Hkeys3 & Hs3);
        [lia|].
      assert (inverse pq1) as Hinv1 by (apply exchange_inverse; [apply Hp|lia|lia]).
      assert (same_keys pq1) as Hkeys1 by (apply exchange_same_keys; apply Hp).
      exists pq3. rewrite (result_bind _ _ _ E2). split_and!.
      + done.
      + split; [lia|by apply Hinv3, Hinv2|].
        apply Hkeys3; [by apply Hinv2|by apply Hkeys2].
      + lia.
      + rewrite Hs3, Hs2 by lia. unfold pq1. rewrite slot_exchange by lia.
        by rewrite decide_True.
      + rewrite Hv3, Hv2. unfold pq1. by rewrite vals_exchange.
      + rewrite (swims_cmp _ _ _ Hrun3), (sinks_cmp _ _ _ _ Hrun2).
        unfold pq1. by rewrite cmp_exchange.
      + intros Hf Hh.
        assert (StrictWeak (cmp pq1)) as Hf1 by (unfold pq1; by rewrite cmp_exchange).
        assert (hole n i pq1) as Hhole.
        { split.
          - intros c Hc Hci Hup. pose proof (up_bounds c ltac:(lia)).
            unfold ordered, pq1. rewrite cmp_exchange, !sv_exchange by lia.
            rewrite !decide_False by lia. apply Hh. lia.
          - intros c Hpos Hc Hup. pose proof (up_bounds c ltac:(lia)).
            pose proof (up_bounds i Hpos).
            unfold pq1. rewrite cmp_exchange, !sv_exchange by lia.
            rewrite !decide_False by lia.
            apply (heap_grand (len (pm pq)) i pq); [done|done|done|lia|done]. }
        destruct (sinks_hole n _ _ _ Hrun2) as [Hup _]; [done|lia|lia|done|].
        eapply swims_heap; [done| |lia|lia|done].
        by rewrite (sinks_cmp _ _ _ _ Hrun2). }
  rewrite (result_bind _ _ _ E3).
  unfold slice_to. destruct (Z.leb_spec 0 n); [|lia].
  destruct (Z.leb_spec n (len (pm pq3))); [|lia]. cbn [andb]. rewrite bind_ret.
  destruct (drop_last pq3 k n) as (Hp' & Hlen' & Hheap'); [done|lia|lia|done|].
  eexists. split_and!.
  - reflexivity.
  - done.
  - cbn [vals]. by rewrite Hv3.
  - done.
  - by rewrite Hlen'.
  - intros Hf Hh. rewrite Hlen'. by apply Hheap', Hheap3.
Qed.

(** *** Sequences of calls *)

Lemma apply_op_paired pq o pq' :
  paired pq → result (apply_op pq o) = Done pq' →
  paired pq' ∧ cmp pq' = cmp pq ∧
  (StrictWeak (cmp pq) → heap_upto (len (pm pq)) pq →
   heap_upto (len (pm pq')) pq').
Proof.
  intros Hp. destruct o as [k v| |k v|k]; cbn [apply_op].
  - destruct (im pq !! k) as [i|] eqn:Ei.
    + rewrite (Push_present _ _ _ _ Ei), bind_run. cbn. by intros [= <-].
    + destruct (Z_lt_ge_dec (len (pm pq)) GoInt.max_int) as [Hlen|Hlen].
      * destruct (Push_fresh pq k v Hp Ei Hlen) as (pq1 & E & ? & _ & ? & _ & ?).
        rewrite (result_bind _ _ _ E). cbn. by intros [= <-].
      * unfold mbind, M_mbind, M_bind. by rewrite Push_full by (done || lia).
  - destruct (Z_le_gt_dec (len (pm pq)) 0) as [Hlen|Hlen].
    + pose proof (len_nonneg (pm pq)).
      rewrite Pop_empty, bind_run by lia. cbn. by intros [= <-].
    + destruct (Pop_nonempty pq Hp) as (pq1 & k & v & E & ? & _ & _ & _ & ? & _ & ?);
        [lia|].
      rewrite (result_bind _ _ _ E). cbn. by intros [= <-].
  - destruct (im pq !! k) as [i|] eqn:Ei.
    + destruct (Update_present pq k v i Hp Ei)
        as (pq1 & pq2 & _ & _ & E & ? & _ & ? & _ & Hheap).
      rewrite (result_bind _ _ _ E). cbn. intros [= <-].
      split_and!; [done|done|]. intros Hf Hh. by apply Hheap.
    + rewrite (Update_absent _ _ _ Ei), bind_run. cbn. by intros [= <-].
  - destruct (im pq !! k) as [i|] eqn:Ei.
    + destruct (Remove_present pq k i Hp Ei) as (pq1 & E & ? & _ & ? & _ & ?).
      rewrite E. by intros [= <-].
    + rewrite (Remove_absent _ _ Ei). cbn. by intros [= <-].
Qed.

(** A call returns, unless it is a [Push] onto a queue of the largest
    length a slice can have. *)
Lemma apply_op_returns pq o :
  paired pq →
  (∃ pq', result (apply_op pq o) = Done pq') ∨
  (result (apply_op pq o) = Panic LenOutOfRange ∧
   len (pm pq) = GoInt.max_int ∧ ∃ k v, o = OpPush k v).
Proof.
  intros Hp. pose proof (p_len _ Hp). destruct o as [k v| |k v|k]; cbn [apply_op].
  - destruct (im pq !! k) as [i|] eqn:Ei.
    + left. rewrite (Push_present _ _ _ _ Ei), bind_run. by eexists.
    + destruct (Z_lt_ge_dec (len (pm pq)) GoInt.max_int) as [Hlen|Hlen].
      * destruct (Push_fresh pq k v Hp Ei Hlen) as (pq1 & E & _).
        left. rewrite (result_bind _ _ _ E). by eexists.
      * right. unfold mbind, M_mbind, M_bind. rewrite Push_full by (done || lia).
        split_and!; [done|lia|by eexists _, _].
  - left. destruct (Z_le_gt_dec (len (pm pq)) 0) as [Hlen|Hlen].
    + pose proof (len_nonneg (pm pq)).
      rewrite Pop_empty, bind_run by lia. by eexists.
    + destruct (Pop_nonempty pq Hp) as (pq1 & k & v & E & _); [lia|].
      rewrite (result_bind _ _ _ E). by eexists.
  - left. destruct (im pq !! k) as [i|] eqn:Ei.
    + destruct (Update_present pq k v i Hp Ei) as (pq1 & pq2 & _ & _ & E & _).
      rewrite (result_bind _ _ _ E). by eexists.
    + rewrite (Update_absent _ _ _ Ei), bind_run. by eexists.
  - left. destruct (im pq !! k) as [i|] eqn:Ei.
    + destruct (Remove_present pq k i Hp Ei) as (pq1 & E & _). by eexists.
    + rewrite (Remove_absent _ _ Ei). by eexists.
Qed.

Lemma result_bind_inv {A B} (m : M A) (g : A → M B) b :
  result (m ≫= g) = Done b → ∃ a, result m = Done a ∧ result (g a) = Done b.
Proof.
  unfold mbind, M_mbind, M_bind. destruct (result m) as [a| |]; [|done|done].
  cbn. by exists a.
Qed.

Lemma run_paired os : ∀ pq pq',
  paired pq → result (run os pq) = Done pq' →
  paired pq' ∧ cmp pq' = cmp pq ∧
  (StrictWeak (cmp pq) → heap_upto (len (pm pq)) pq →
   heap_upto (len (pm pq')) pq').
Proof.
  induction os as [|o os IH]; intros pq pq' Hp; cbn [run].
  - by intros [= <-].
  - intros (pq1 & E1 & E)%result_bind_inv.
    destruct (apply_op_paired _ _ _ Hp E1) as (Hp1 & Hc1 & Hh1).
    destruct (IH _ _ Hp1 E) as (Hp' & Hc' & Hh').
    split_and!; [done|congruence|].
    intros Hf Hh. apply Hh'; [by rewrite Hc1|by apply Hh1].
Qed.

Lemma reachable_consistent (f : V → V → bool) pq :
  reachable f pq →
  paired pq ∧ cmp pq = f ∧ (StrictWeak f → heap_upto (len (pm pq)) pq).
Proof.
  intros (calls & pq0 & E0 & E). cbn in E0. injection E0 as <-.
  assert (paired ({| pm := []; im := ∅; vals := ∅; cmp := f |}
                  : KeyedPriorityQueue K V)) as Hp0.
  { split; [done| |].
    - intros i k. cbn [pm im]. rewrite lookup_empty. unfold slot.
      by destruct (0 <=? i).
    - intros k. cbn [vals im]. by rewrite !lookup_empty. }
  destruct (run_paired calls _ _ Hp0 E) as (Hp & Hc & Hh).
  split_and!; [done|done|]. intros Hf. apply Hh; [done|]. intros c Hc'.
  unfold len in Hc'. cbn in Hc'. lia.
Qed.

Lemma run_snoc os o : ∀ pq pq' pq'',
  result (run os pq) = Done pq' → result (apply_op pq' o) = Done pq'' →
  result (run (os ++ [o]) pq) = Done pq''.
Proof.
  induction os as [|o' os IH]; intros pq pq' pq''; cbn [run app].
  - intros [= <-] E. by rewrite (result_bind _ _ _ E).
  - intros (pq1 & E1 & E)%result_bind_inv E'.
    rewrite (result_bind _ _ _ E1). by apply (IH _ pq').
Qed.

Lemma reachable_step (f : V → V → bool) pq o pq' :
  reachable f pq → result (apply_op pq o) = Done pq' → reachable f pq'.
Proof.
  intros (calls & pq0 & E0 & E) E'. exists (calls ++ [o]), pq0.
  split; [done|]. by apply (run_snoc _ _ _ pq).
Qed.

(** X19: every call of Push, Pop, Update or Remove on a reachable queue
    returns, without a panic and with fuel to spare, and the queue it
    leaves is reachable; the one exception is a [Push] of a new key onto a
    queue of the largest length a slice can have, where [append] panics. *)
Lemma reachable_call_returns (f : V → V → bool) pq o :
  reachable f pq →
  (∃ pq', result (apply_op pq o) = Done pq' ∧ reachable f pq') ∨
  (result (apply_op pq o) = Panic LenOutOfRange ∧
   len (pm pq) = GoInt.max_int ∧ ∃ k v, o = OpPush k v).
Proof.
  intros Hr. destruct (reachable_consistent _ _ Hr) as (Hp & _).
  destruct (apply_op_returns pq o Hp) as [[pq' E]|?]; [left|by right].
  exists pq'. split; [done|]. by apply (reachable_step f pq o).
Qed.

End Methods.

(** ** Extraction in priority order *)

Section Extraction.
Context {K : Type} `{Countable K} {V : Type} `{Zero K} `{Zero V} `{Format K}.
Implicit Types (pq : KeyedPriorityQueue K V) (i j c n : Z) (k : K) (v : V).

(** No slot below [n] has priority over the root. *)
Lemma heap_root n pq :
  StrictWeak (cmp pq) → heap_upto n pq →
  ∀ c, 0 <= c → c < n → cmp pq (sv pq c) (sv pq 0) = false.
Proof.
  intros Hf Hh c Hc. pattern c. apply Zlt_0_ind; [|done].
  clear c Hc. intros c IH Hc Hn.
  destruct (decide (c = 0)) as [->|Hpos]; [apply (sw_irrefl _ Hf)|].
  pose proof (up_bounds c ltac:(lia)).
  apply (sw_negtrans _ Hf _ (sv pq (up c))); [apply Hh; lia|].
  apply IH; lia.
Qed.

Lemma root_best pq k :
  paired pq → StrictWeak (cmp pq) → heap_upto (len (pm pq)) pq →
  slot (pm pq) 0 = Some k →
  ∀ k' v', vals pq !! k' = Some v' → cmp pq v' (value_of (vals pq) k) = false.
Proof.
  intros Hp Hf Hh Ek k' v' Ev'.
  destruct (proj1 (p_keys _ Hp k')) as [c Ec]; [by eexists|].
  destruct (paired_slot _ _ _ Hp Ec) as [Ek' Hc].
  pose proof (heap_root _ _ Hf Hh c ltac:(lia) ltac:(lia)) as Hroot.
  unfold sv in Hroot. rewrite Ek, Ek' in Hroot.
  unfold value_of at 1 in Hroot. by rewrite Ev' in Hroot.
Qed.

Lemma push_all_spec items : ∀ pq,
  paired pq → NoDup items.*1 → (∀ k, k ∈ items.*1 → vals pq !! k = None) →
  len (pm pq) + Z.of_nat (length items) <= GoInt.max_int →
  ∃ pq1, result (push_all items pq) = Done (pq1, replicate (length items) None) ∧
    paired pq1 ∧ cmp pq1 = cmp pq ∧
    len (pm pq1) = len (pm pq) + Z.of_nat (length items) ∧
    map_to_list (vals pq1) ≡ₚ items ++ map_to_list (vals pq) ∧
    (StrictWeak (cmp pq) → heap_upto (len (pm pq)) pq →
     heap_upto (len (pm pq1)) pq1).
Proof.
  induction items as [|[k v] items IH]; intros pq Hp Hnd Hfresh Hlen.
  - exists pq. cbn. split_and!; try done. lia.
  - cbn [fmap list_fmap fst] in Hnd. apply NoDup_cons in Hnd as [Hk Hnd].
    cbn [length] in Hlen.
    assert (vals pq !! k = None) as Ev by (apply Hfresh; cbn; left).
    assert (im pq !! k = None) as Ei.
    { destruct (im pq !! k) eqn:E; [|done].
      destruct (proj2 (p_keys _ Hp k)) as [? ?]; [by eexists|congruence]. }
    destruct (Push_fresh pq k v Hp Ei) as (pq' & E & Hp' & Hv' & Hc' & Hl' & Hh');
      [lia|].
    destruct (IH pq' Hp' Hnd) as (pq1 & E1 & Hp1 & Hc1 & Hl1 & Hperm & Hh1).
    { intros k' Hk'. rewrite Hv', lookup_insert_ne; [|by intros ->].
      apply Hfresh. cbn. by right. }
    { lia. }
    exists pq1. cbn [push_all]. rewrite (result_bind _ _ _ E). cbn [fst snd].
    rewrite (result_bind _ _ _ E1). split_and!.
    + done.
    + done.
    + congruence.
    + cbn [length]. lia.
    + rewrite Hperm, Hv', map_to_list_insert by done.
      by rewrite <- Permutation_middle.
    + intros Hf Hh. apply Hh1; [by rewrite Hc'|by apply Hh'].
Qed.

Lemma pop_n_spec (m : nat) : ∀ pq,
  paired pq → StrictWeak (cmp pq) → heap_upto (len (pm pq)) pq →
  len (pm pq) = Z.of_nat m →
  distinct_priorities (cmp pq) (map_to_list (vals pq)) →
  ∃ pq2 out, result (pop_n m pq) = Done (pq2, out) ∧
    Forall (λ r, r.2 = true) out ∧ out.*1 ≡ₚ map_to_list (vals pq) ∧
    StronglySorted (before (cmp pq)) out ∧ len (pm pq2) = 0.
Proof.
  induction m as [|m IH]; intros pq Hp Hf Hh Hlen Hdist.
  - exists pq, []. cbn. split_and!; [done|done| |constructor|done].
    rewrite (map_size_empty_inv (vals pq)); [by rewrite map_to_list_empty|].
    pose proof (same_keys_size pq (p_inverse _ Hp) (p_keys _ Hp)). lia.
  - destruct (Pop_nonempty pq Hp) as (pq' & k & v & E & Hp' & Ek & Ev & Hv' & Hc' & Hl' & Hh');
      [lia|].
    pose proof (map_to_list_delete _ _ _ Ev) as Hdel.
    destruct (IH pq' Hp') as (pq2 & out & E2 & Hflags & Hperm & Hsorted & Hl2).
    { by rewrite Hc'. }
    { by apply Hh'. }
    { lia. }
    { rewrite Hc', Hv'. intros k1 v1 k2 v2 Hin1 Hin2. apply Hdist.
      - rewrite <- Hdel. by right.
      - rewrite <- Hdel. by right. }
    exists pq2, ((k, v, true) :: out). cbn [pop_n].
    rewrite (result_bind _ _ _ E). cbn [fst snd].
    rewrite (result_bind _ _ _ E2). split_and!.
    + done.
    + by constructor.
    + cbn. by rewrite Hperm, Hv'.
    + rewrite Hc' in Hsorted. constructor; [done|].
      apply Forall_forall. intros [[k' v'] b] Hin. unfold before. cbn.
      assert ((k', v') ∈ map_to_list (delete k (vals pq))) as Hin'.
      { rewrite <- Hv', <- Hperm. apply list_elem_of_fmap. by exists (k', v', b). }
      assert (k' ≠ k ∧ vals pq !! k' = Some v') as [Hne Ev'].
      { apply elem_of_map_to_list in Hin'. rewrite lookup_delete in Hin'.
        by case_decide. }
      pose proof (root_best pq k Hp Hf Hh Ek k' v' Ev') as Hroot.
      unfold value_of in Hroot. rewrite Ev in Hroot. cbn in Hroot.
      destruct (Hdist k v k' v') as [?|?]; [| |done|done|congruence].
      * by apply elem_of_map_to_list.
      * by apply elem_of_map_to_list.
    + done.
Qed.

End Extraction.

(** ** The claims of the specification *)

Section Claims.
Context {K : Type} `{Countable K} {V : Type} `{Zero K} `{Zero V} `{Format K}.
Implicit Types (pq : KeyedPriorityQueue K V) (i j c n : Z) (k : K) (v : V).

(** C1: in every queue reached from a freshly constructed one by calls of
    Push, Pop, Update and Remove, under a comparison function [f] that is a
    strict weak ordering, every slot [i] with [0 < i < len(pm)] and its
    parent [(i - 1) / 2] hold keys of [vals], and the value of the key in
    slot [i] does not have priority over the value of the key in the parent
    slot: [cmp(vals[pm[i]], vals[pm[parent(i)]])] is false, [cmp] being
    [f].  The helper [compare] returns that same false. *)
Theorem heap_property_reachable (f : V → V → bool) pq :
  StrictWeak f → reachable f pq →
  ∀ i, 0 < i < len (pm pq) →
    ∃ ki kp vi vp,
      parent i = (i - 1) / 2 ∧
      pm pq !! Z.to_nat i = Some ki ∧
      pm pq !! Z.to_nat ((i - 1) / 2) = Some kp ∧
      vals pq !! ki = Some vi ∧ vals pq !! kp = Some vp ∧
      cmp pq = f ∧ f vi vp = false ∧
      result (compare pq i (parent i)) = Done false.
Proof.
  intros Hf (Hp & Hc & Hh)%reachable_consistent i Hi.
  pose proof (p_len _ Hp). pose proof (up_bounds i ltac:(lia)) as Hup.
  assert (parent i = up i) as Hpar by (apply parent_up; lia).
  destruct (slot_is_Some (pm pq) i) as [ki Eki]; [lia|].
  destruct (slot_is_Some (pm pq) (up i)) as [kp Ekp]; [lia|].
  pose proof (paired_value pq ki i Hp (proj1 (p_inverse _ Hp i ki) Eki)) as Evi.
  pose proof (paired_value pq kp (up i) Hp (proj1 (p_inverse _ Hp _ kp) Ekp)) as Evp.
  pose proof (Hh Hf i Hi) as Hord. unfold ordered, sv in Hord.
  rewrite Eki, Ekp, Hc in Hord.
  exists ki, kp, (value_of (vals pq) ki), (value_of (vals pq) kp).
  split; [exact Hpar|]. fold (up i).
  split; [unfold slot in Eki; by destruct (Z.leb_spec 0 i); [|lia]|].
  split; [unfold slot in Ekp; by destruct (Z.leb_spec 0 (up i)); [|lia]|].
  split; [exact Evi|]. split; [exact Evp|]. split; [exact Hc|].
  split; [exact Hord|].
  rewrite Hpar, compare_done by lia. cbn [result]. f_equal.
  unfold sv. by rewrite Eki, Ekp, Hc.
Qed.

(** C2: in every queue reached from a freshly constructed one by calls of
    Push, Pop, Update and Remove, [pm] and [im] are inverse to each other
    ([pm[im[k]] == k] for every key of [im], [im[pm[i]] == i] for every
    slot), the three containers have the same length, and they hold the
    same keys. *)
Theorem containers_coindexed (f : V → V → bool) pq :
  reachable f pq →
  (∀ k i, im pq !! k = Some i → result (index (pm pq) i) = Done k) ∧
  (∀ i, 0 <= i < len (pm pq) →
        ∃ k, result (index (pm pq) i) = Done k ∧ im pq !! k = Some i) ∧
  len (pm pq) = Z.of_nat (size (im pq)) ∧
  len (pm pq) = Z.of_nat (size (vals pq)) ∧
  dom (im pq) = list_to_set (pm pq) ∧
  dom (vals pq) = list_to_set (pm pq).
Proof.
  intros (Hp & _ & _)%reachable_consistent.
  pose proof (p_inverse _ Hp) as Hinv. pose proof (p_keys _ Hp) as Hkeys.
  split_and!.
  - intros k i E%Hinv. by rewrite (index_done _ _ _ E).
  - intros i [k E]%slot_is_Some. exists k. rewrite (index_done _ _ _ E).
    split; [done|]. by apply Hinv.
  - symmetry. by apply inverse_size.
  - symmetry. by apply same_keys_size.
  - by apply inverse_dom.
  - rewrite (same_keys_dom _ Hkeys). by apply inverse_dom.
Qed.

(** C3: when items with distinct keys and pairwise distinct priorities are
    pushed onto a fresh queue whose comparison function is a strict weak
    ordering, every Push succeeds, and as many calls of Pop as there are
    items all return true, return the items pushed, and return them in
    priority order: the value of each result has priority over the value
    of every later one.  (The number of items is one a slice can hold.) *)
Theorem pop_in_priority_order (f : V → V → bool) (items : list (K * V)) :
  StrictWeak f → NoDup items.*1 → distinct_priorities f items →
  Z.of_nat (length items) <= GoInt.max_int →
  ∃ pq0 pq1 pq2 out,
    result (NewKeyedPriorityQueue (Some f)) = Done pq0 ∧
    result (push_all items pq0) = Done (pq1, replicate (length items) None) ∧
    result (pop_n (length items) pq1) = Done (pq2, out) ∧
    length out = length items ∧
    Forall (λ r, r.2 = true) out ∧
    out.*1 ≡ₚ items ∧
    StronglySorted (before f) out.
Proof.
  intros Hf Hnd Hdist Hlen.
  set (pq0 := {| pm := []; im := ∅; vals := ∅; cmp := f |} : KeyedPriorityQueue K V).
  assert (paired pq0) as Hp0.
  { split; [done| |].
    - intros i k. cbn [pq0 pm im]. rewrite lookup_empty. unfold slot.
      by destruct (0 <=? i).
    - intros k. cbn [pq0 vals im]. by rewrite !lookup_empty. }
  destruct (push_all_spec items pq0 Hp0 Hnd)
    as (pq1 & E1 & Hp1 & Hc1 & Hl1 & Hperm & Hh1).
  { intros k _. apply lookup_empty. }
  { unfold len. cbn. lia. }
  cbn [pq0 vals] in Hperm. rewrite map_to_list_empty, app_nil_r in Hperm.
  destruct (pop_n_spec (length items) pq1 Hp1)
    as (pq2 & out & E2 & Hflags & Hperm2 & Hsorted & _).
  { by rewrite Hc1. }
  { apply Hh1; [done|]. intros c Hc. unfold len in Hc. cbn in Hc. lia. }
  { rewrite Hl1. unfold len. cbn. lia. }
  { rewrite Hc1. intros k1 v1 k2 v2. rewrite !Hperm. apply Hdist. }
  exists pq0, pq1, pq2, out. split_and!; try done.
  - rewrite <- (length_fmap fst out). by rewrite Hperm2, Hperm.
  - by rewrite Hperm2.
  - by rewrite Hc1 in Hsorted.
Qed.

(** C4: a failed call changes nothing.  On every queue, Push with a key
    that the queue contains returns a KeyAlreadyExistsError for that key;
    and, on every queue, Update with a key that the queue does not contain
    returns a KeyNotFoundError for that key.  Each returns the queue as it
    was, [pm], [im] and [vals] included, without having indexed [pm].  The
    two halves do not depend on each other. *)
Theorem failed_calls_leave_queue pq k v :
  (Contains pq k = true →
   Push pq k v = Run [] (Done (pq, Some (newKeyAlreadyExistsError k))) ∧
   ∃ e, newKeyAlreadyExistsError k = KeyAlreadyExistsError e ∧ key e = k) ∧
  (Contains pq k = false →
   Update pq k v = Run [] (Done (pq, Some (newKeyNotFoundError k))) ∧
   ∃ e, newKeyNotFoundError k = KeyNotFoundError e ∧ key e = k).
Proof.
  unfold Contains. split.
  - intros [i Ei]%bool_decide_eq_true.
    split; [by apply (Push_present _ _ _ i)|]. by eexists.
  - intros Hk%bool_decide_eq_false.
    assert (im pq !! k = None) as E
      by (by destruct (im pq !! k); [destruct Hk; eexists|]).
    split; [by apply Update_absent|]. by eexists.
Qed.

(** C6: on a queue with no entries Peek, PeekKey, PeekValue and Pop return
    normally with false as their last result, and Pop returns the queue as
    it was (the other three have no queue to return: they assign
    nothing). *)
Theorem empty_queue_signals pq :
  Len pq = 0 →
  (∃ k v, Peek pq = Run [] (Done (k, v, false))) ∧
  (∃ k, PeekKey pq = Run [] (Done (k, false))) ∧
  (∃ v, PeekValue pq = Run [] (Done (v, false))) ∧
  (∃ k v, Pop pq = Run [] (Done (pq, (k, v, false)))).
Proof.
  unfold Len, Peek, PeekKey, PeekValue, Pop. intros ->. cbn.
  split_and!; by repeat eexists.
Qed.

(** C7: Remove of a key that the queue does not contain returns normally
    and leaves [pm], [im] and [vals] as they were, hence also the results
    of Len and of Peek. *)
Theorem Remove_absent_noop pq k :
  Contains pq k = false →
  ∃ pq', Remove pq k = Run [] (Done pq') ∧
    pm pq' = pm pq ∧ im pq' = im pq ∧ vals pq' = vals pq ∧
    Len pq' = Len pq ∧ Peek pq' = Peek pq.
Proof.
  unfold Contains. intros Hk%bool_decide_eq_false. exists pq.
  split_and!; try done. apply Remove_absent.
  by destruct (im pq !! k); [destruct Hk; eexists|].
Qed.

(** C8: NewKeyedPriorityQueue panics exactly when the comparison function
    is nil; otherwise it returns an empty queue with that comparison
    function, which satisfies the invariants and onto which any key can be
    pushed. *)
Theorem constructor_panics_iff_nil (c : option (V → V → bool)) :
  ((∃ p, result (NewKeyedPriorityQueue (K := K) c) = Panic p) ↔ c = None) ∧
  (c = None → result (NewKeyedPriorityQueue (K := K) c) = Panic NilCmp) ∧
  (∀ f, c = Some f →
    ∃ pq, NewKeyedPriorityQueue c = Run [] (Done pq) ∧
      cmp pq = f ∧ Len pq = 0 ∧ IsEmpty pq = true ∧ consistent pq ∧
      ∀ k v, ∃ pq', result (Push pq k v) = Done (pq', None) ∧ Len pq' = 1).
Proof.
  split_and!.
  - destruct c; cbn; split; [by intros [? ?]|done|done|by eexists].
  - by intros ->.
  - intros f ->. eexists. split; [reflexivity|].
    set (pq0 := {| pm := []; im := ∅; vals := ∅; cmp := f |} : KeyedPriorityQueue K V).
    assert (paired pq0) as Hp0.
    { split; [done| |].
      - intros i k. cbn [pq0 pm im]. rewrite lookup_empty. unfold slot.
        by destruct (0 <=? i).
      - intros k. cbn [pq0 vals im]. by rewrite !lookup_empty. }
    split_and!; [done|done|done| |].
    + split; [done|]. intros i Hi. unfold len in Hi. cbn in Hi. lia.
    + intros k v. destruct (Push_fresh pq0 k v Hp0) as (pq' & E & _ & _ & _ & Hl & _);
        [apply lookup_empty|done|].
      exists pq'. split; [done|]. unfold Len. by rewrite Hl.
Qed.

(** C9: [leftChild(i)] is [2i + 1] computed with wrap-around.  For a slot
    [0 <= i] and a bound [n <= len(pm)] (both of them ints), when [2i + 1]
    overflows, the result is negative and [sink] returns at once, the queue
    unchanged and [pm] never indexed; and in every case [sink] returns and
    has indexed [pm] at slots of [[0, n)] only. *)
Theorem sink_within_bound pq i n :
  0 <= i <= GoInt.max_int → n <= GoInt.max_int → n <= len (pm pq) →
  leftChild i = GoInt.wrap (GoInt.wrap (i * 2) + 1) ∧
  (GoInt.max_int < 2 * i + 1 →
   leftChild i < 0 ∧ sink pq i n = Run [] (Done pq)) ∧
  (∃ pq', result (sink pq i n) = Done pq') ∧
  Forall (λ a, 0 <= a < n) (slots (sink pq i n)).
Proof.
  intros Hi Hmax Hn. split_and!.
  - done.
  - intros Hover. pose proof (leftChild_overflow i Hi Hover) as Hneg.
    split; [done|]. unfold sink. cbn [sink_loop].
    destruct (leftChild i <? n); [|done].
    by destruct (Z.ltb_spec (leftChild i) 0); [|lia].
  - destruct (sink_loop_sinks (S (Z.to_nat n)) pq i n) as (pq' & E & _);
      [done|done|done|lia|].
    by exists pq'.
  - destruct (sink_loop_sinks (S (Z.to_nat n)) pq i n) as (pq' & _ & _ & Hlog);
      [done|done|done|lia|done].
Qed.

(** C10: on a queue with no entries the results of Pop, Peek, PeekKey and
    PeekValue other than the flag are the zero values of the key and value
    types; a queue that holds the zero key with the zero value returns
    these same values, and only the flag, then true, tells the two
    apart. *)
Theorem empty_results_are_zero (f : V → V → bool) pq :
  Len pq = 0 →
  Pop pq = Run [] (Done (pq, (zero, zero, false))) ∧
  Peek pq = Run [] (Done (zero, zero, false)) ∧
  PeekKey pq = Run [] (Done (zero, false)) ∧
  PeekValue pq = Run [] (Done (zero, false)) ∧
  ∃ pq0 pq1,
    result (NewKeyedPriorityQueue (Some f)) = Done pq0 ∧
    result (Push pq0 zero zero) = Done (pq1, None) ∧
    result (Peek pq1) = Done (zero, zero, true) ∧
    result (PeekKey pq1) = Done (zero, true) ∧
    result (PeekValue pq1) = Done (zero, true) ∧
    ∃ pq2, result (Pop pq1) = Done (pq2, (zero, zero, true)).
Proof.
  unfold Len. intros Hlen. split_and!.
  - unfold Pop. by rewrite Hlen.
  - unfold Peek. by rewrite Hlen.
  - unfold PeekKey. by rewrite Hlen.
  - unfold PeekValue. by rewrite Hlen.
  - set (pq0 := {| pm := []; im := ∅; vals := ∅; cmp := f |} : KeyedPriorityQueue K V).
    set (pq1 := {| pm := [zero]; im := <[zero := 0]> ∅; vals := <[zero := zero]> ∅;
                   cmp := f |} : KeyedPriorityQueue K V).
    assert (value_of (vals pq1) zero = zero) as Hv.
    { unfold value_of. cbn [pq1 vals]. by rewrite lookup_insert_eq. }
    assert (Push pq0 zero zero = Run [] (Done (pq1, None))) as E1.
    { unfold Push. cbn [pq0 pm im vals cmp]. by rewrite lookup_empty. }
    assert (paired pq1) as Hp1.
    { split; [done| |].
      - intros i k. cbn [pq1 pm im]. rewrite lookup_insert, lookup_empty.
        unfold slot. destruct (Z.leb_spec 0 i).
        + destruct (decide (i = 0)) as [->|Hi].
          * change ([zero] !! Z.to_nat 0) with (Some (zero : K)).
            case_decide; split; intros ?; by simplify_eq.
          * rewrite lookup_ge_None_2 by (cbn; lia).
            case_decide; split; intros ?; by simplify_eq.
        + case_decide; split; intros ?; simplify_eq; lia.
      - intros k. cbn [pq1 vals im]. rewrite !lookup_insert.
        case_decide; [split; eauto|by rewrite !lookup_empty]. }
    destruct (Pop_nonempty pq1 Hp1) as (pq2 & k & v & E2 & _ & Ek & Ev & _); [done|].
    cbn in Ek. injection Ek as <-. cbn [pq1 vals] in Ev.
    rewrite lookup_insert_eq in Ev. injection Ev as <-.
    exists pq0, pq1. split_and!.
    + done.
    + by rewrite E1.
    + by rewrite (Peek_nonempty pq1 zero), Hv.
    + by rewrite (PeekKey_nonempty pq1 zero).
    + by rewrite (PeekValue_nonempty pq1 zero), Hv.
    + by exists pq2.
Qed.

End Claims.

(** C5: Update of a key that the queue contains stores the new value for
    that key, then calls [swim] and [sink] on its slot, of which at most
    one changes the queue, and leaves a queue with the heap property,
    whatever the new value is.  In the min-first queue holding A with 10,
    B with 8 and C with 9, Peek returns B with 8, and after Update(C, 1)
    it returns C with 1. *)
Theorem Update_restores_order :
  (∀ (K : Type) (EqK : EqDecision K) (CK : Countable K) (V : Type)
     (ZK : Zero K) (ZV : Zero V) (FK : Format K) (f : V → V → bool)
     (pq : KeyedPriorityQueue K V) (k : K) (v : V) (i : Z),
     StrictWeak f → reachable f pq → im pq !! k = Some i →
     let pq0 := {| pm := pm pq; im := im pq; vals := <[k := v]> (vals pq);
                   cmp := cmp pq |} in
     ∃ pq1 pq2,
       result (swim pq0 i) = Done pq1 ∧
       result (sink pq1 i (Z.of_nat (size (vals pq1)))) = Done pq2 ∧
       result (Update pq k v) = Done (pq2, None) ∧
       (pq1 = pq0 ∨ pq2 = pq1) ∧
       vals pq2 = <[k := v]> (vals pq) ∧
       ∀ c, 0 < c < len (pm pq2) → result (compare pq2 c (parent c)) = Done false) ∧
  (∃ q q',
     result (push_all [("A", 10); ("B", 8); ("C", 9)]%string Demo.fresh)
       = Done (q, [None; None; None]) ∧
     result (Peek q) = Done ("B"%string, 8, true) ∧
     result (Update q "C"%string 1) = Done (q', None) ∧
     result (Peek q') = Done ("C"%string, 1, true)).
Proof.
  split.
  - intros K EqK CK V ZK ZV FK f pq k v i Hf (Hp & Hc & Hh)%reachable_consistent Ei pq0.
    destruct (Update_present pq k v i Hp Ei)
      as (pq1 & pq2 & E1 & E2 & E & Hp2 & Hv & Hc2 & Hl & Hheap).
    destruct Hheap as [Hheap Hone]; [by rewrite Hc|by apply Hh|].
    exists pq1, pq2. split_and!; [done|done|done|done|done|].
    intros c Hc'. pose proof (p_len _ Hp2). pose proof (up_bounds c ltac:(lia)).
    rewrite parent_up by lia. rewrite compare_done by lia. cbn [result].
    f_equal. by apply Hheap.
  - exists Demo.abc, Demo.abc_updated. split_and!; vm_compute; reflexivity.
Qed.

(** ** The claims on the queue of the tests *)

Lemma less_strict_weak : StrictWeak Demo.less.
Proof.
  unfold Demo.less. split; unfold incomparable.
  - intros x. apply Z.ltb_irrefl.
  - intros x y z. rewrite !Z.ltb_lt. lia.
  - intros x y z. rewrite !Z.ltb_ge. lia.
Qed.

Lemma less_distinct (items : list (string * Z)) :
  NoDup items.*2 → distinct_priorities Demo.less items.
Proof.
  intros Hnd k1 v1 k2 v2 H1 H2 Hne.
  destruct (decide (v1 = v2)) as [->|Hv];
    [exfalso|unfold Demo.less; rewrite !Z.ltb_lt; lia].
  induction items as [|x items IH]; [by apply elem_of_nil in H1|].
  cbn in Hnd. apply NoDup_cons in Hnd as [Hx Hnd].
  apply elem_of_cons in H1 as [E1|H1], H2 as [E2|H2]; subst.
  - congruence.
  - apply Hx. apply list_elem_of_fmap. by exists (k2, v2).
  - apply Hx. apply list_elem_of_fmap. by exists (k1, v2).
  - by apply IH.
Qed.

Lemma queue_reachable : reachable Demo.less Demo.queue.
Proof. exists Demo.calls, Demo.fresh. split; [reflexivity|]. vm_compute. reflexivity. Qed.

Lemma heap_property_reachable_witness :
  StrictWeak Demo.less ∧ reachable Demo.less Demo.queue ∧
  0 < 2 < len (pm Demo.queue) ∧
  ∃ ki kp vi vp,
    parent 2 = (2 - 1) / 2 ∧
    pm Demo.queue !! Z.to_nat 2 = Some ki ∧
    pm Demo.queue !! Z.to_nat ((2 - 1) / 2) = Some kp ∧
    vals Demo.queue !! ki = Some vi ∧ vals Demo.queue !! kp = Some vp ∧
    cmp Demo.queue = Demo.less ∧ Demo.less vi vp = false ∧
    result (compare Demo.queue 2 (parent 2)) = Done false.
Proof.
  assert (0 < 2 < len (pm Demo.queue)) as Hi by (vm_compute; split; reflexivity).
  split; [apply less_strict_weak|]. split; [apply queue_reachable|].
  split; [exact Hi|].
  exact (heap_property_reachable Demo.less Demo.queue
           less_strict_weak queue_reachable 2 Hi).
Defined.

Lemma containers_coindexed_witness :
  reachable Demo.less Demo.queue ∧
  len (pm Demo.queue) = Z.of_nat (size (im Demo.queue)) ∧
  len (pm Demo.queue) = Z.of_nat (size (vals Demo.queue)) ∧
  dom (im Demo.queue) = list_to_set (pm Demo.queue) ∧
  dom (vals Demo.queue) = list_to_set (pm Demo.queue).
Proof.
  split; [apply queue_reachable|].
  apply (containers_coindexed Demo.less Demo.queue queue_reachable).
Defined.

Lemma pop_in_priority_order_witness :
  StrictWeak Demo.less ∧ NoDup Demo.items.*1 ∧
  distinct_priorities Demo.less Demo.items ∧
  Z.of_nat (length Demo.items) <= GoInt.max_int ∧
  ∃ pq0 pq1 pq2 out,
    result (NewKeyedPriorityQueue (Some Demo.less)) = Done pq0 ∧
    result (push_all Demo.items pq0)
      = Done (pq1, replicate (length Demo.items) None) ∧
    result (pop_n (length Demo.items) pq1) = Done (pq2, out) ∧
    length out = length Demo.items ∧
    Forall (λ r, r.2 = true) out ∧
    out.*1 ≡ₚ Demo.items ∧
    StronglySorted (before Demo.less) out.
Proof.
  assert (NoDup Demo.items.*1) as Hkeys
    by (apply (bool_decide_unpack _); vm_compute; exact I).
  assert (distinct_priorities Demo.less Demo.items) as Hdist.
  { apply less_distinct. apply (bool_decide_unpack _). vm_compute. exact I. }
  assert (Z.of_nat (length Demo.items) <= GoInt.max_int) as Hlen
    by (vm_compute; discriminate).
  split; [apply less_strict_weak|]. split; [exact Hkeys|].
  split; [exact Hdist|]. split; [exact Hlen|].
  exact (pop_in_priority_order Demo.less Demo.items
           less_strict_weak Hkeys Hdist Hlen).
Defined.

Lemma failed_calls_leave_queue_witness :
  (Contains Demo.queue "last"%string = true ∧
   Push Demo.queue "last"%string 1
     = Run [] (Done (Demo.queue, Some (newKeyAlreadyExistsError "last"%string)))) ∧
  (Contains Demo.queue "third"%string = false ∧
   Update Demo.queue "third"%string 1
     = Run [] (Done (Demo.queue, Some (newKeyNotFoundError "third"%string)))) ∧
  (Contains Demo.fresh "key-not-found"%string = false ∧
   Update Demo.fresh "key-not-found"%string 20
     = Run [] (Done (Demo.fresh, Some (newKeyNotFoundError "key-not-found"%string)))).
Proof.
  assert (Contains Demo.queue "last"%string = true) as H1 by (vm_compute; reflexivity).
  assert (Contains Demo.queue "third"%string = false) as H2 by (vm_compute; reflexivity).
  assert (Contains Demo.fresh "key-not-found"%string = false) as H3
    by (vm_compute; reflexivity).
  split; [split; [exact H1|]|split; [split; [exact H2|]|split; [exact H3|]]].
  - exact (proj1 (proj1 (failed_calls_leave_queue Demo.queue "last"%string 1) H1)).
  - exact (proj1 (proj2 (failed_calls_leave_queue Demo.queue "third"%string 1) H2)).
  - exact (proj1 (proj2 (failed_calls_leave_queue Demo.fresh "key-not-found"%string 20) H3)).
Defined.

Lemma Update_restores_order_witness :
  StrictWeak Demo.less ∧ reachable Demo.less Demo.queue ∧
  im Demo.queue !! "fourth"%string = Some 2 ∧
  ∃ pq2, result (Update Demo.queue "fourth"%string 1) = Done (pq2, None) ∧
         vals pq2 = <["fourth"%string := 1]> (vals Demo.queue).
Proof.
  assert (im Demo.queue !! "fourth"%string = Some 2) as Hk by (vm_compute; reflexivity).
  split; [apply less_strict_weak|]. split; [apply queue_reachable|].
  split; [exact Hk|].
  destruct (proj1 Update_restores_order string _ _ Z _ _ _ Demo.less Demo.queue
              "fourth"%string 1 2 less_strict_weak queue_reachable Hk)
    as (pq1 & pq2 & _ & _ & E & _ & Hv & _).
  exists pq2. split; [exact E|exact Hv].
Defined.

Lemma empty_queue_signals_witness :
  Len Demo.fresh = 0 ∧
  (∃ k v, Peek Demo.fresh = Run [] (Done (k, v, false))) ∧
  (∃ k, PeekKey Demo.fresh = Run [] (Done (k, false))) ∧
  (∃ v, PeekValue Demo.fresh = Run [] (Done (v, false))) ∧
  (∃ k v, Pop Demo.fresh = Run [] (Done (Demo.fresh, (k, v, false)))).
Proof.
  split; [reflexivity|]. apply (empty_queue_signals Demo.fresh). reflexivity.
Defined.

Lemma Remove_absent_noop_witness :
  Contains Demo.queue "third"%string = false ∧
  ∃ pq', Remove Demo.queue "third"%string = Run [] (Done pq') ∧
    pm pq' = pm Demo.queue ∧ im pq' = im Demo.queue ∧
    vals pq' = vals Demo.queue ∧
    Len pq' = Len Demo.queue ∧ Peek pq' = Peek Demo.queue.
Proof.
  assert (Contains Demo.queue "third"%string = false) as Hk by (vm_compute; reflexivity).
  split; [exact Hk|]. exact (Remove_absent_noop Demo.queue _ Hk).
Defined.

Lemma constructor_panics_iff_nil_witness :
  ∃ pq : KeyedPriorityQueue string Z,
    NewKeyedPriorityQueue (Some Demo.less) = Run [] (Done pq) ∧
    cmp pq = Demo.less ∧ Len pq = 0 ∧ IsEmpty pq = true ∧ consistent pq ∧
    ∀ k v, ∃ pq', result (Push pq k v) = Done (pq', None) ∧ Len pq' = 1.
Proof.
  exact (proj2 (proj2 (constructor_panics_iff_nil (K := string) (Some Demo.less)))
           Demo.less eq_refl).
Defined.

Lemma sink_within_bound_witness :
  (0 <= 0 <= GoInt.max_int ∧ 3 <= GoInt.max_int ∧ 3 <= len (pm Demo.queue) ∧
   (∃ pq', result (sink Demo.queue 0 3) = Done pq') ∧
   Forall (λ a, 0 <= a < 3) (slots (sink Demo.queue 0 3))) ∧
  (0 <= 4611686018427387904 <= GoInt.max_int ∧
   GoInt.max_int < 2 * 4611686018427387904 + 1 ∧
   leftChild 4611686018427387904 < 0 ∧
   sink Demo.queue 4611686018427387904 3 = Run [] (Done Demo.queue)).
Proof.
  assert (3 <= GoInt.max_int) as Hmax by (vm_compute; discriminate).
  assert (3 <= len (pm Demo.queue)) as Hn by (vm_compute; discriminate).
  assert (0 <= 0 <= GoInt.max_int) as H0 by (vm_compute; split; discriminate).
  assert (0 <= 4611686018427387904 <= GoInt.max_int) as Hbig
    by (vm_compute; split; discriminate).
  assert (GoInt.max_int < 2 * 4611686018427387904 + 1) as Hover
    by (vm_compute; reflexivity).
  split.
  - split; [exact H0|]. split; [exact Hmax|]. split; [exact Hn|].
    apply (sink_within_bound Demo.queue 0 3 H0 Hmax Hn).
  - split; [exact Hbig|]. split; [exact Hover|].
    apply (sink_within_bound Demo.queue 4611686018427387904 3 Hbig Hmax Hn).
    exact Hover.
Defined.

Lemma empty_results_are_zero_witness :
  Len Demo.fresh = 0 ∧
  Pop Demo.fresh = Run [] (Done (Demo.fresh, (EmptyString, 0, false))) ∧
  Peek Demo.fresh = Run [] (Done (EmptyString, 0, false)) ∧
  PeekKey Demo.fresh = Run [] (Done (EmptyString, false)) ∧
  PeekValue Demo.fresh = Run [] (Done (0, false)).
Proof.
  split; [reflexivity|].
  destruct (empty_results_are_zero Demo.less Demo.fresh eq_refl)
    as (E1 & E2 & E3 & E4 & _).
  split_and!; [exact E1|exact E2|exact E3|exact E4].
Defined.

(** * Further properties of the code *)

(** ** Index arithmetic *)

(** X1: for a slot [i >= 0] whose children [2i + 1] and [2i + 2] are ints,
    [leftChild] does not wrap, [parent] takes both children back to [i],
    and a slot other than the root has its parent strictly below it and is
    one of the two children of that parent; the parent of the root is the
    root (Go's division truncates toward zero). *)
Theorem parent_leftChild_round_trip i :
  0 <= i → 2 * i + 2 <= GoInt.max_int →
  leftChild i = 2 * i + 1 ∧
  parent (leftChild i) = i ∧
  parent (GoInt.add (leftChild i) 1) = i ∧
  (0 < i → 0 <= parent i < i ∧
           (leftChild (parent i) = i ∨ GoInt.add (leftChild (parent i)) 1 = i)) ∧
  (i = 0 → parent i = 0).
Proof.
  intros Hi Hmax. unfold leftChild, parent. unfold_int. dlia.
Qed.

Lemma parent_leftChild_round_trip_witness :
  0 <= 3 ∧ 2 * 3 + 2 <= GoInt.max_int ∧
  leftChild 3 = 7 ∧ parent (leftChild 3) = 3 ∧
  parent (GoInt.add (leftChild 3) 1) = 3.
Proof.
  assert (0 <= 3) as H0 by (vm_compute; discriminate).
  assert (2 * 3 + 2 <= GoInt.max_int) as H1 by (vm_compute; discriminate).
  split; [exact H0|]. split; [exact H1|].
  destruct (parent_leftChild_round_trip 3 H0 H1) as (E1 & E2 & E3 & _).
  split; [exact E1|]. split; [exact E2|exact E3].
Defined.

(** ** The primitive [swap] *)

Section Swap.
Context {K : Type} `{Countable K} {V : Type} `{Zero K} `{Zero V} `{Format K}.
Implicit Types (pq : KeyedPriorityQueue K V) (i j c n : Z) (k : K) (v : V).

Lemma slot_ext (s s' : list K) : (∀ c, slot s c = slot s' c) → s = s'.
Proof.
  intros Hs. apply list_eq. intros m. specialize (Hs (Z.of_nat m)).
  unfold slot in Hs. destruct (Z.leb_spec 0 (Z.of_nat m)); [|lia].
  by rewrite Nat2Z.id in Hs.
Qed.

Lemma index_panic (s : list K) i :
  slot s i = None → index s i = Run [i] (Panic IndexOutOfRange).
Proof. unfold index. by intros ->. Qed.

Lemma queue_eta pq :
  {| pm := pm pq; im := im pq; vals := vals pq; cmp := cmp pq |} = pq.
Proof. by destruct pq. Qed.

Lemma exchange_twice pq i j :
  inverse pq → 0 <= i < len (pm pq) → 0 <= j < len (pm pq) →
  exchange (exchange pq i j) i j = pq.
Proof.
  intros Hinv Hi Hj.
  destruct (slot_is_Some _ _ Hi) as [ki Ei], (slot_is_Some _ _ Hj) as [kj Ej].
  assert (slot (pm (exchange pq i j)) i = Some kj) as Ei'.
  { rewrite slot_exchange by done. case_decide; [congruence|].
    by rewrite decide_True. }
  assert (slot (pm (exchange pq i j)) j = Some ki) as Ej'.
  { rewrite slot_exchange by done. by rewrite decide_True. }
  rewrite (exchange_eq _ _ _ _ _ Ei' Ej').
  rewrite vals_exchange, cmp_exchange. rewrite <- (queue_eta pq) at 5.
  f_equal.
  - apply slot_ext. intros c.
    rewrite slot_insert by (rewrite len_insert, len_exchange; lia).
    case_decide as Ecj; [by subst c|].
    rewrite slot_insert by (rewrite len_exchange; lia).
    case_decide as Eci; [by subst c|].
    rewrite slot_exchange by done. by rewrite !decide_False.
  - rewrite (exchange_eq _ _ _ _ _ Ei Ej). cbn [im]. apply map_eq. intros k.
    apply Hinv in Ei, Ej. rewrite !lookup_insert.
    repeat case_decide; simplify_eq; congruence.
Qed.

(** X2: [swap] returns exactly when both indices are slots of [pm], and
    panics with an index out of range otherwise.  When it returns, the keys
    of the two slots have changed places, every other slot, the values and
    the length are as before, and [im] maps the key now in each of the two
    slots to that slot. *)
Theorem swap_exchanges_or_panics pq i j :
  (0 <= i < len (pm pq) ∧ 0 <= j < len (pm pq) →
   ∃ pq', result (swap pq i j) = Done pq' ∧
     slot (pm pq') i = slot (pm pq) j ∧ slot (pm pq') j = slot (pm pq) i ∧
     (∀ c, c ≠ i → c ≠ j → slot (pm pq') c = slot (pm pq) c) ∧
     (∀ a b, slot (pm pq') i = Some a → slot (pm pq') j = Some b →
             im pq' !! b = Some j ∧ (a ≠ b → im pq' !! a = Some i) ∧
             ∀ k, k ≠ a → k ≠ b → im pq' !! k = im pq !! k) ∧
     vals pq' = vals pq ∧ cmp pq' = cmp pq ∧ len (pm pq') = len (pm pq)) ∧
  (¬ (0 <= i < len (pm pq) ∧ 0 <= j < len (pm pq)) →
   result (swap pq i j) = Panic IndexOutOfRange).
Proof.
  split.
  - intros [Hi Hj]. exists (exchange pq i j). rewrite swap_done by done.
    destruct (slot_is_Some _ _ Hi) as [ki Ei], (slot_is_Some _ _ Hj) as [kj Ej].
    split_and!.
    + done.
    + rewrite slot_exchange by done. case_decide; [by subst|].
      by rewrite decide_True.
    + rewrite slot_exchange by done. by rewrite decide_True.
    + intros c ? ?. rewrite slot_exchange by done. by rewrite !decide_False.
    + intros a b. rewrite !slot_exchange by done.
      rewrite (decide_True (P := j = j)) by done.
      assert ((if decide (i = j) then slot (pm pq) i
               else if decide (i = i) then slot (pm pq) j else slot (pm pq) i)
              = Some kj) as ->.
      { case_decide; [congruence|]. by rewrite decide_True. }
      rewrite Ei. intros [= <-] [= <-].
      rewrite (exchange_eq _ _ _ _ _ Ei Ej). cbn [im]. split_and!.
      * by rewrite lookup_insert_eq.
      * intros Hne. rewrite lookup_insert_ne by done. by rewrite lookup_insert_eq.
      * intros k ? ?. by rewrite !lookup_insert_ne.
    + apply vals_exchange.
    + apply cmp_exchange.
    + apply len_exchange.
  - intros Hout. unfold swap.
    destruct (slot (pm pq) j) as [kj|] eqn:Ej.
    + rewrite (index_done _ _ _ Ej), bind_run. cbn [result].
      pose proof (slot_Some _ _ _ Ej).
      rewrite index_panic by (apply slot_None; tauto). reflexivity.
    + by rewrite (index_panic _ _ Ej).
Qed.

Lemma exchange_comm pq i j :
  inverse pq → 0 <= i < len (pm pq) → 0 <= j < len (pm pq) →
  exchange pq j i = exchange pq i j.
Proof.
  intros Hinv Hi Hj.
  destruct (slot_is_Some _ _ Hi) as [ki Ei], (slot_is_Some _ _ Hj) as [kj Ej].
  rewrite (exchange_eq _ _ _ _ _ Ei Ej), (exchange_eq _ _ _ _ _ Ej Ei).
  f_equal.
  - apply slot_ext. intros c.
    rewrite !slot_insert by (rewrite ?len_insert; lia).
    repeat case_decide; simplify_eq; congruence.
  - apply map_eq. intros k. rewrite !lookup_insert.
    pose proof (inverse_inj pq i j) as Hij.
    repeat case_decide; simplify_eq; try done.
    assert (i = j) as -> by eauto. done.
Qed.

Lemma exchange_same pq i :
  inverse pq → 0 <= i < len (pm pq) → exchange pq i i = pq.
Proof.
  intros Hinv Hi. destruct (slot_is_Some _ _ Hi) as [ki Ei].
  rewrite (exchange_eq _ _ _ _ _ Ei Ei). rewrite <- (queue_eta pq) at 5.
  f_equal.
  - apply slot_ext. intros c.
    rewrite !slot_insert by (rewrite ?len_insert; lia).
    case_decide; by subst.
  - apply map_eq. intros k. apply Hinv in Ei. rewrite !lookup_insert.
    case_decide; by subst.
Qed.

(** X3: on a queue whose [pm] and [im] are inverse to each other, [swap] of
    two slots does not depend on the order of its arguments, undoes itself
    when called twice, and changes nothing when the two slots are the
    same. *)
Theorem swap_involution pq i j :
  inverse pq → 0 <= i < len (pm pq) → 0 <= j < len (pm pq) →
  ∃ pq', result (swap pq i j) = Done pq' ∧
         result (swap pq j i) = Done pq' ∧
         result (swap pq' i j) = Done pq ∧
         (i = j → pq' = pq).
Proof.
  intros Hinv Hi Hj. exists (exchange pq i j).
  rewrite !swap_done by (rewrite ?len_exchange; done). cbn [result].
  split_and!.
  - done.
  - by rewrite exchange_comm.
  - by rewrite exchange_twice.
  - intros <-. by apply exchange_same.
Qed.

Lemma exchange_perm pq i j :
  0 <= i < len (pm pq) → 0 <= j < len (pm pq) →
  pm (exchange pq i j) ≡ₚ pm pq.
Proof.
  intros Hi Hj.
  destruct (slot_is_Some _ _ Hi) as [ki Ei], (slot_is_Some _ _ Hj) as [kj Ej].
  rewrite (exchange_eq _ _ _ _ _ Ei Ej). cbn [pm].
  unfold slot in Ei, Ej. unfold len in Hi, Hj.
  destruct (Z.leb_spec 0 i); [|lia]. destruct (Z.leb_spec 0 j); [|lia].
  set (a := Z.to_nat i) in *. set (b := Z.to_nat j) in *.
  assert (a < length (pm pq))%nat by lia.
  assert (b < length (pm pq))%nat by lia.
  apply Permutation_inj. split; [by rewrite !length_insert|].
  exists (λ m : nat, if decide (m = a) then b else if decide (m = b) then a else m).
  split.
  - intros x y. repeat case_decide; congruence.
  - intros m. destruct (decide (m = b)) as [->|Hcb].
    + rewrite list_lookup_insert_eq by (by rewrite length_insert).
      case_decide as Hba; [by rewrite Hba|]. by rewrite ?decide_True.
    + rewrite list_lookup_insert_ne by done.
      destruct (decide (m = a)) as [->|Hca].
      * by rewrite list_lookup_insert_eq.
      * by rewrite list_lookup_insert_ne.
Qed.

End Swap.

(** ** The loops [swim] and [sink] *)

Section Sifting.
Context {K : Type} `{Countable K} {V : Type} `{Zero K} `{Zero V} `{Format K}.
Implicit Types (pq : KeyedPriorityQueue K V) (i j c n : Z) (k : K) (v : V).

Lemma swims_perm i pq pq' :
  swims i pq pq' → 0 <= i < len (pm pq) → pm pq' ≡ₚ pm pq.
Proof.
  induction 1 as [i pq Hroot|i pq Hpos Hcmp|i pq pq' Hpos Hcmp Hrun IH];
    intros Hi; [done|done|].
  pose proof (up_bounds i Hpos).
  rewrite IH by (rewrite len_exchange; lia). apply exchange_perm; lia.
Qed.

Lemma sinks_perm n i pq pq' :
  sinks n i pq pq' → 0 <= i → n <= len (pm pq) → pm pq' ≡ₚ pm pq.
Proof.
  induction 1 as [i pq Hleaf|i pq Hl Hcmp|i pq pq' Hl Hcmp Hrun IH];
    intros Hi Hn; [done|done|].
  destruct (better_child_range pq i n Hl) as [Hj Hjn].
  rewrite IH by (rewrite ?len_exchange; lia). apply exchange_perm; lia.
Qed.

Lemma swims_ordered n i pq pq' :
  swims i pq pq' → 0 <= i < n → heap_upto n pq → pq' = pq.
Proof.
  intros Hrun Hi Hh.
  destruct Hrun as [i pq Hroot|i pq Hpos Hcmp|i pq pq' Hpos Hcmp Hrun]; [done|done|].
  assert (ordered pq i) as Ho by (apply Hh; lia). unfold ordered in Ho. congruence.
Qed.

(** X4: [swim] from a slot [i] of [pm] returns; it only rearranges the keys
    of [pm], leaves every slot above [i] as well as the values and the
    comparison function as they were. *)
Theorem swim_frame pq i :
  0 <= i < len (pm pq) → i <= GoInt.max_int →
  ∃ pq', result (swim pq i) = Done pq' ∧ pm pq' ≡ₚ pm pq ∧
    (∀ c, i < c → slot (pm pq') c = slot (pm pq) c) ∧
    vals pq' = vals pq ∧ cmp pq' = cmp pq.
Proof.
  intros Hi Hmax. destruct (swim_swims pq i Hi Hmax) as (pq' & E & Hrun).
  destruct (swims_frame _ _ _ Hrun Hi) as (Hv & _ & _ & _ & Hslot).
  exists pq'. split_and!; [done| |done|done|].
  - by apply (swims_perm i).
  - by apply (swims_cmp i).
Qed.

(** X5: [sink] from a slot [i >= 0] with a bound [n <= len(pm)] only
    rearranges the keys of [pm], and leaves every slot below [i] and every
    slot from [n] on, as well as the values and the comparison function, as
    they were. *)
Theorem sink_frame pq i n :
  0 <= i <= GoInt.max_int → n <= GoInt.max_int → n <= len (pm pq) →
  ∃ pq', result (sink pq i n) = Done pq' ∧ pm pq' ≡ₚ pm pq ∧
    (∀ c, c < i ∨ n <= c → slot (pm pq') c = slot (pm pq) c) ∧
    vals pq' = vals pq ∧ cmp pq' = cmp pq.
Proof.
  intros Hi Hmax Hn. destruct (sink_sinks pq i n Hi Hn Hmax) as (pq' & E & Hrun).
  destruct (sinks_frame _ _ _ _ Hrun) as (Hv & _ & _ & _ & Hslot); [lia|done|].
  exists pq'. split_and!; [done| |done|done|].
  - apply (sinks_perm n i); [done|lia|done].
  - by apply (sinks_cmp n i).
Qed.

(** X6: on a queue reached by calls of the methods, under a strict weak
    ordering, [swim] from any slot and [sink] from any slot with any bound
    up to [len(pm)] return the queue as it is: a queue that has the heap
    property is a fixed point of both loops. *)
Theorem sifting_ordered_queue (f : V → V → bool) pq i n :
  StrictWeak f → reachable f pq →
  0 <= i < len (pm pq) → n <= len (pm pq) →
  result (swim pq i) = Done pq ∧ result (sink pq i n) = Done pq.
Proof.
  intros Hf (Hp & Hc & Hh)%reachable_consistent Hi Hn.
  pose proof (p_len _ Hp). specialize (Hh Hf). split.
  - destruct (swim_swims pq i) as (pq' & E & Hrun); [done|lia|].
    by rewrite E, (swims_ordered _ _ _ _ Hrun Hi Hh).
  - destruct (sink_sinks pq i n) as (pq' & E & Hrun); [lia|lia|lia|].
    rewrite E. f_equal. apply (sinks_ordered n i); [done|by rewrite Hc|lia|].
    by apply (heap_upto_le (len (pm pq))).
Qed.

End Sifting.

(** ** The methods, as their callers see them *)

Section Api.
Context {K : Type} `{Countable K} {V : Type} `{Zero K} `{Zero V} `{Format K}.
Implicit Types (pq : KeyedPriorityQueue K V) (i j c n : Z) (k : K) (v : V).

Lemma Contains_true pq k : Contains pq k = true ↔ is_Some (im pq !! k).
Proof. unfold Contains. apply bool_decide_eq_true. Qed.

Lemma Contains_false pq k : Contains pq k = false ↔ im pq !! k = None.
Proof.
  unfold Contains. rewrite bool_decide_eq_false, <- eq_None_not_Some. done.
Qed.

Lemma Contains_vals pq k :
  paired pq → Contains pq k = bool_decide (is_Some (vals pq !! k)).
Proof. intros Hp. unfold Contains. apply bool_decide_ext. symmetry. apply Hp. Qed.

Lemma ValueOf_Some pq k v : ValueOf pq k = (v, true) ↔ vals pq !! k = Some v.
Proof.
  unfold ValueOf. destruct (vals pq !! k); split; intros ?; by simplify_eq.
Qed.

Lemma same_vals_api pq pq' k :
  paired pq → paired pq' → vals pq' !! k = vals pq !! k →
  Contains pq' k = Contains pq k ∧ ValueOf pq' k = ValueOf pq k.
Proof.
  intros Hp Hp' E. rewrite !Contains_vals by done. unfold ValueOf.
  by rewrite E.
Qed.

(** X7: Push of a key that a reachable queue does not contain, while the
    queue is shorter than the longest slice, returns no error; afterwards
    the queue contains the key with the value pushed, is one entry longer,
    and contains every other key with the value it had, or not at all, as
    before. *)
Theorem Push_then_lookup (f : V → V → bool) pq k v :
  reachable f pq → Contains pq k = false → Len pq < GoInt.max_int →
  ∃ pq', result (Push pq k v) = Done (pq', None) ∧ reachable f pq' ∧
    Contains pq' k = true ∧ ValueOf pq' k = (v, true) ∧
    Len pq' = Len pq + 1 ∧
    ∀ k', k' ≠ k → Contains pq' k' = Contains pq k' ∧
                   ValueOf pq' k' = ValueOf pq k'.
Proof.
  intros Hr Hk%Contains_false Hlen.
  destruct (reachable_consistent _ _ Hr) as (Hp & _).
  destruct (Push_fresh pq k v Hp Hk Hlen) as (pq' & E & Hp' & Hv & _ & Hl & _).
  exists pq'. split_and!.
  - done.
  - apply (reachable_step f pq (OpPush k v)); [done|]. cbn [apply_op].
    by rewrite (result_bind _ _ _ E).
  - rewrite Contains_vals, Hv, lookup_insert_eq by done.
    by apply bool_decide_eq_true.
  - apply ValueOf_Some. by rewrite Hv, lookup_insert_eq.
  - done.
  - intros k' Hne. apply same_vals_api; [done|done|].
    by rewrite Hv, lookup_insert_ne.
Qed.

(** X8: on a reachable queue that is not empty, Pop returns true with the
    key and value that Peek returns; afterwards the queue no longer
    contains that key, is one entry shorter, and contains every other key
    with the value it had, or not at all, as before. *)
Theorem Pop_returns_peek (f : V → V → bool) pq :
  reachable f pq → IsEmpty pq = false →
  ∃ pq' k v, result (Peek pq) = Done (k, v, true) ∧
    result (Pop pq) = Done (pq', (k, v, true)) ∧ reachable f pq' ∧
    ValueOf pq k = (v, true) ∧ Contains pq' k = false ∧
    Len pq' = Len pq - 1 ∧
    ∀ k', k' ≠ k → Contains pq' k' = Contains pq k' ∧
                   ValueOf pq' k' = ValueOf pq k'.
Proof.
  intros Hr Hne. unfold IsEmpty in Hne. apply Z.eqb_neq in Hne.
  pose proof (len_nonneg (pm pq)).
  destruct (reachable_consistent _ _ Hr) as (Hp & _).
  destruct (Pop_nonempty pq Hp) as (pq' & k & v & E & Hp' & Ek & Ev & Hv & _ & Hl & _);
    [lia|].
  exists pq', k, v. split_and!.
  - rewrite (Peek_nonempty _ _ Ek). unfold value_of. by rewrite Ev.
  - done.
  - apply (reachable_step f pq OpPop); [done|]. cbn [apply_op].
    by rewrite (result_bind _ _ _ E).
  - by apply ValueOf_Some.
  - rewrite Contains_vals, Hv, lookup_delete_eq by done.
    apply bool_decide_eq_false. by intros [? ?].
  - done.
  - intros k' Hne'. apply same_vals_api; [done|done|].
    by rewrite Hv, lookup_delete_ne.
Qed.

(** X9: under a strict weak ordering, no value held by a reachable queue
    has priority over the value that Peek returns. *)
Theorem Peek_is_best (f : V → V → bool) pq k v :
  StrictWeak f → reachable f pq → result (Peek pq) = Done (k, v, true) →
  ∀ k' v', ValueOf pq k' = (v', true) → f v' v = false.
Proof.
  intros Hf (Hp & Hc & Hh)%reachable_consistent E k' v' Ev'%ValueOf_Some.
  unfold Peek in E. destruct (len (pm pq) =? 0) eqn:El; [done|].
  apply Z.eqb_neq in El. pose proof (len_nonneg (pm pq)).
  destruct (slot_is_Some (pm pq) 0) as [k0 Ek0]; [lia|].
  rewrite (index_done _ _ _ Ek0) in E. cbn in E. injection E as <- <-.
  subst f. exact (root_best pq k0 Hp Hf (Hh Hf) Ek0 k' v' Ev').
Qed.

(** X10: Remove of a key that a reachable queue contains returns;
    afterwards the queue no longer contains the key, is one entry shorter,
    and contains every other key with the value it had, or not at all, as
    before; a second Remove of the key changes nothing. *)
Theorem Remove_then_lookup (f : V → V → bool) pq k :
  reachable f pq → Contains pq k = true →
  ∃ pq', result (Remove pq k) = Done pq' ∧ reachable f pq' ∧
    Contains pq' k = false ∧ ValueOf pq' k = (zero, false) ∧
    Len pq' = Len pq - 1 ∧
    (∀ k', k' ≠ k → Contains pq' k' = Contains pq k' ∧
                    ValueOf pq' k' = ValueOf pq k') ∧
    result (Remove pq' k) = Done pq'.
Proof.
  intros Hr [i Ei]%Contains_true.
  destruct (reachable_consistent _ _ Hr) as (Hp & _).
  destruct (Remove_present pq k i Hp Ei) as (pq' & E & Hp' & Hv & _ & Hl & _).
  assert (Contains pq' k = false) as Hgone.
  { rewrite Contains_vals, Hv, lookup_delete_eq by done.
    apply bool_decide_eq_false. by intros [? ?]. }
  exists pq'. split_and!.
  - done.
  - by apply (reachable_step f pq (OpRemove k)).
  - done.
  - unfold ValueOf. by rewrite Hv, lookup_delete_eq.
  - done.
  - intros k' Hne'. apply same_vals_api; [done|done|].
    by rewrite Hv, lookup_delete_ne.
  - apply Contains_false in Hgone. by rewrite (Remove_absent _ _ Hgone).
Qed.

(** X11: Update of a key that a reachable queue contains returns no error;
    afterwards the key has the new value, the queue has the same length and
    the same keys, only rearranged in [pm], and every other key has the
    value it had. *)
Theorem Update_then_lookup (f : V → V → bool) pq k v :
  reachable f pq → Contains pq k = true →
  ∃ pq', result (Update pq k v) = Done (pq', None) ∧ reachable f pq' ∧
    ValueOf pq' k = (v, true) ∧ Len pq' = Len pq ∧
    (∀ k', Contains pq' k' = Contains pq k') ∧
    (∀ k', k' ≠ k → ValueOf pq' k' = ValueOf pq k').
Proof.
  intros Hr [i Ei]%Contains_true.
  destruct (reachable_consistent _ _ Hr) as (Hp & _).
  destruct (Update_present pq k v i Hp Ei)
    as (pq1 & pq2 & _ & _ & E & Hp2 & Hv & _ & Hl & _).
  exists pq2. split_and!.
  - done.
  - apply (reachable_step f pq (OpUpdate k v)); [done|]. cbn [apply_op].
    by rewrite (result_bind _ _ _ E).
  - apply ValueOf_Some. by rewrite Hv, lookup_insert_eq.
  - done.
  - intros k'. rewrite !Contains_vals, Hv by done. apply bool_decide_ext.
    rewrite lookup_insert. case_decide; [subst k'|done].
    split; [intros _|by eauto]. apply (p_keys _ Hp). by eexists.
  - intros k' Hne. unfold ValueOf. by rewrite Hv, lookup_insert_ne.
Qed.

(** X12: on a reachable queue Contains, the flag of ValueOf and membership
    in [pm] agree for every key. *)
Theorem Contains_iff_ValueOf (f : V → V → bool) pq k :
  reachable f pq →
  Contains pq k = (ValueOf pq k).2 ∧ (Contains pq k = true ↔ k ∈ pm pq).
Proof.
  intros (Hp & _)%reachable_consistent. split.
  - rewrite Contains_vals by done. unfold ValueOf.
    by destruct (vals pq !! k).
  - rewrite Contains_true, elem_of_slot. split.
    + intros [i Ei]. exists i. by apply (p_inverse _ Hp).
    + intros [i Ei]. exists i. by apply (p_inverse _ Hp).
Qed.

(** X13: a reachable queue is empty exactly when it contains no key. *)
Theorem IsEmpty_iff_no_key (f : V → V → bool) pq :
  reachable f pq → (IsEmpty pq = true ↔ ∀ k, Contains pq k = false).
Proof.
  intros (Hp & _)%reachable_consistent. unfold IsEmpty. rewrite Z.eqb_eq.
  pose proof (len_nonneg (pm pq)). split.
  - intros Hlen k. apply Contains_false.
    destruct (im pq !! k) as [i|] eqn:Ei; [|done].
    destruct (paired_slot _ _ _ Hp Ei). lia.
  - intros Hnone. destruct (decide (len (pm pq) = 0)) as [|Hne]; [done|].
    destruct (slot_is_Some (pm pq) 0) as [k Ek]; [lia|].
    specialize (Hnone k). apply Contains_false in Hnone.
    apply (p_inverse _ Hp) in Ek. congruence.
Qed.

(** X14: on every queue, consistent or not, Peek, PeekKey and PeekValue
    return without a panic, with the same flag, namely the negation of
    IsEmpty, and with the same key and value; they index [pm] at slot 0
    only. *)
Theorem Peek_family_agree pq :
  ∃ k v, result (Peek pq) = Done (k, v, negb (IsEmpty pq)) ∧
         result (PeekKey pq) = Done (k, negb (IsEmpty pq)) ∧
         result (PeekValue pq) = Done (v, negb (IsEmpty pq)) ∧
         Forall (λ a, a = 0) (slots (Peek pq) ++ slots (PeekKey pq)
                                ++ slots (PeekValue pq)).
Proof.
  unfold IsEmpty, Peek, PeekKey, PeekValue.
  destruct (Z.eqb_spec (len (pm pq)) 0) as [?|Hne].
  - exists zero, zero. cbn. split_and!; try done.
  - pose proof (len_nonneg (pm pq)).
    destruct (slot_is_Some (pm pq) 0) as [k Ek]; [lia|].
    exists k, (value_of (vals pq) k). rewrite (index_done _ _ _ Ek). cbn.
    split_and!; try done. by repeat constructor.
Qed.

Lemma pop_n_drains (m : nat) : ∀ pq,
  paired pq → StrictWeak (cmp pq) → heap_upto (len (pm pq)) pq →
  len (pm pq) = Z.of_nat m →
  ∃ pq2 out, result (pop_n m pq) = Done (pq2, out) ∧
    Forall (λ r, r.2 = true) out ∧ out.*1 ≡ₚ map_to_list (vals pq) ∧
    StronglySorted (λ x y, cmp pq y.1.2 x.1.2 = false) out ∧
    len (pm pq2) = 0.
Proof.
  induction m as [|m IH]; intros pq Hp Hf Hh Hlen.
  - exists pq, []. cbn. split_and!; [done|done| |constructor|done].
    rewrite (map_size_empty_inv (vals pq)); [by rewrite map_to_list_empty|].
    pose proof (same_keys_size pq (p_inverse _ Hp) (p_keys _ Hp)). lia.
  - destruct (Pop_nonempty pq Hp) as (pq' & k & v & E & Hp' & Ek & Ev & Hv' & Hc' & Hl' & Hh');
      [lia|].
    pose proof (map_to_list_delete _ _ _ Ev) as Hdel.
    destruct (IH pq' Hp') as (pq2 & out & E2 & Hflags & Hperm & Hsorted & Hl2);
      [by rewrite Hc'|by apply Hh'|lia|].
    exists pq2, ((k, v, true) :: out). cbn [pop_n].
    rewrite (result_bind _ _ _ E). cbn [fst snd].
    rewrite (result_bind _ _ _ E2). split_and!.
    + done.
    + by constructor.
    + cbn. by rewrite Hperm, Hv'.
    + rewrite Hc' in Hsorted. constructor; [done|].
      apply Forall_forall. intros [[k' v'] b] Hin. cbn.
      assert ((k', v') ∈ map_to_list (delete k (vals pq))) as Hin'.
      { rewrite <- Hv', <- Hperm. apply list_elem_of_fmap. by exists (k', v', b). }
      apply elem_of_map_to_list in Hin'. rewrite lookup_delete in Hin'.
      case_decide; [done|].
      pose proof (root_best pq k Hp Hf Hh Ek k' v' Hin') as Hroot.
      unfold value_of in Hroot. by rewrite Ev in Hroot.
    + done.
Qed.

(** X15: under a strict weak ordering, as many calls of Pop as a reachable
    queue has entries all return true, return every key of the queue with
    its value once, in an order in which no result has a value with
    priority over the value of an earlier one, and leave an empty queue, on
    which Pop returns false. *)
Theorem pops_drain_in_order (f : V → V → bool) pq :
  StrictWeak f → reachable f pq →
  ∃ pq' out, result (pop_n (Z.to_nat (Len pq)) pq) = Done (pq', out) ∧
    Forall (λ r, r.2 = true) out ∧
    out.*1 ≡ₚ map_to_list (vals pq) ∧
    StronglySorted (λ x y, f y.1.2 x.1.2 = false) out ∧
    IsEmpty pq' = true ∧
    result (Pop pq') = Done (pq', (zero, zero, false)).
Proof.
  intros Hf (Hp & Hc & Hh)%reachable_consistent. subst f.
  pose proof (len_nonneg (pm pq)).
  destruct (pop_n_drains (Z.to_nat (Len pq)) pq Hp Hf (Hh Hf))
    as (pq' & out & E & Hflags & Hperm & Hsorted & Hl); [unfold Len; lia|].
  exists pq', out. split_and!; try done.
  - unfold IsEmpty. by rewrite Hl.
  - by rewrite Pop_empty.
Qed.

(** X16: under a strict weak ordering, after Push of a new key with a value
    that has priority over every value of a reachable queue, Peek returns
    that key and value. *)
Theorem Push_best_is_next (f : V → V → bool) pq k v :
  StrictWeak f → reachable f pq →
  Contains pq k = false → Len pq < GoInt.max_int →
  (∀ k' v', ValueOf pq k' = (v', true) → f v v' = true) →
  ∃ pq', result (Push pq k v) = Done (pq', None) ∧
         result (Peek pq') = Done (k, v, true).
Proof.
  intros Hf (Hp & Hc & Hh)%reachable_consistent Hk%Contains_false Hlen Hbest.
  subst f. pose proof (len_nonneg (pm pq)).
  destruct (Push_fresh pq k v Hp Hk Hlen) as (pq' & E & Hp' & Hv & Hc' & Hl & Hh').
  exists pq'. split; [done|].
  destruct (slot_is_Some (pm pq') 0) as [k0 Ek0]; [lia|].
  rewrite (Peek_nonempty _ _ Ek0). cbn [result].
  pose proof (paired_value pq' k0 0 Hp' (proj1 (p_inverse _ Hp' 0 k0) Ek0)) as Ev0.
  assert (cmp pq v (value_of (vals pq') k0) = false) as Hroot.
  { assert (StrictWeak (cmp pq')) as Hf' by (by rewrite Hc').
    assert (vals pq' !! k = Some v) as Ekv by (by rewrite Hv, lookup_insert_eq).
    rewrite <- Hc'.
    exact (root_best pq' k0 Hp' Hf' (Hh' Hf (Hh Hf)) Ek0 k v Ekv). }
  destruct (decide (k0 = k)) as [->|Hne].
  - do 3 f_equal. unfold value_of. by rewrite Hv, lookup_insert_eq.
  - assert (ValueOf pq k0 = (value_of (vals pq') k0, true)) as Hval.
    { apply ValueOf_Some. rewrite <- Ev0. by rewrite Hv, lookup_insert_ne. }
    by rewrite (Hbest _ _ Hval) in Hroot.
Qed.

(** X17: under a strict weak ordering, after Update of a key of a reachable
    queue to a value that has priority over the value of every other key,
    Peek returns that key and value. *)
Theorem Update_best_is_next (f : V → V → bool) pq k v :
  StrictWeak f → reachable f pq → Contains pq k = true →
  (∀ k' v', k' ≠ k → ValueOf pq k' = (v', true) → f v v' = true) →
  ∃ pq', result (Update pq k v) = Done (pq', None) ∧
         result (Peek pq') = Done (k, v, true).
Proof.
  intros Hf (Hp & Hc & Hh)%reachable_consistent [i Ei]%Contains_true Hbest.
  subst f. destruct (paired_slot _ _ _ Hp Ei) as [_ Hi].
  destruct (Update_present pq k v i Hp Ei)
    as (pq1 & pq' & _ & _ & E & Hp' & Hv & Hc' & Hl & Hh').
  destruct (Hh' Hf (Hh Hf)) as [Hheap _].
  exists pq'. split; [done|].
  destruct (slot_is_Some (pm pq') 0) as [k0 Ek0]; [lia|].
  rewrite (Peek_nonempty _ _ Ek0). cbn [result].
  pose proof (paired_value pq' k0 0 Hp' (proj1 (p_inverse _ Hp' 0 k0) Ek0)) as Ev0.
  assert (cmp pq v (value_of (vals pq') k0) = false) as Hroot.
  { assert (StrictWeak (cmp pq')) as Hf' by (by rewrite Hc').
    assert (vals pq' !! k = Some v) as Ekv by (by rewrite Hv, lookup_insert_eq).
    rewrite <- Hc'.
    exact (root_best pq' k0 Hp' Hf' Hheap Ek0 k v Ekv). }
  destruct (decide (k0 = k)) as [->|Hne].
  - do 3 f_equal. unfold value_of. by rewrite Hv, lookup_insert_eq.
  - assert (ValueOf pq k0 = (value_of (vals pq') k0, true)) as Hval.
    { apply ValueOf_Some. rewrite <- Ev0. by rewrite Hv, lookup_insert_ne. }
    by rewrite (Hbest _ _ Hne Hval) in Hroot.
Qed.

(** X18: Push of a new key onto a reachable queue followed by Remove of
    that key gives back a queue with the values, the length and the keys it
    had, the keys possibly in other slots of [pm]. *)
Theorem Push_Remove_round_trip (f : V → V → bool) pq k v :
  reachable f pq → Contains pq k = false → Len pq < GoInt.max_int →
  ∃ pq1 pq2, result (Push pq k v) = Done (pq1, None) ∧
    result (Remove pq1 k) = Done pq2 ∧
    vals pq2 = vals pq ∧ Len pq2 = Len pq ∧ pm pq2 ≡ₚ pm pq ∧
    ∀ k', Contains pq2 k' = Contains pq k' ∧ ValueOf pq2 k' = ValueOf pq k'.
Proof.
  intros (Hp & _)%reachable_consistent Hk%Contains_false Hlen.
  destruct (Push_fresh pq k v Hp Hk Hlen) as (pq1 & E1 & Hp1 & Hv1 & _ & Hl1 & _).
  assert (vals pq !! k = None) as Hnone.
  { destruct (vals pq !! k) eqn:Ev; [|done].
    destruct (proj1 (p_keys _ Hp k)) as [? ?]; [by eexists|congruence]. }
  destruct (proj1 (p_keys _ Hp1 k)) as [i Ei];
    [rewrite Hv1, lookup_insert_eq; by eexists|].
  destruct (Remove_present pq1 k i Hp1 Ei) as (pq2 & E2 & Hp2 & Hv2 & _ & Hl2 & _).
  assert (vals pq2 = vals pq) as Hv by (by rewrite Hv2, Hv1, delete_insert_id).
  exists pq1, pq2. split_and!; [done|done|done|unfold Len; lia| |].
  - apply NoDup_Permutation;
      [apply inverse_NoDup, Hp2|apply inverse_NoDup, Hp|].
    intros k'. rewrite !elem_of_slot. split; intros [c Ec].
    + apply (p_inverse _ Hp2) in Ec.
      destruct (proj2 (p_keys _ Hp2 k')) as [v' Ev']; [by eexists|].
      rewrite Hv in Ev'.
      destruct (proj1 (p_keys _ Hp k')) as [c' Ec']; [by eexists|].
      exists c'. by apply (p_inverse _ Hp).
    + apply (p_inverse _ Hp) in Ec.
      destruct (proj2 (p_keys _ Hp k')) as [v' Ev']; [by eexists|].
      rewrite <- Hv in Ev'.
      destruct (proj1 (p_keys _ Hp2 k')) as [c' Ec']; [by eexists|].
      exists c'. by apply (p_inverse _ Hp2).
  - intros k'. apply same_vals_api; [done|done|by rewrite Hv].
Qed.

End Api.

(** ** The further properties on the queue of the tests *)

Lemma queue_paired : paired Demo.queue.
Proof. apply (reachable_consistent Demo.less), queue_reachable. Qed.

Lemma queue_values (k : string) (v : Z) :
  ValueOf Demo.queue k = (v, true) → 5 <= v.
Proof.
  intros Hv%ValueOf_Some%elem_of_map_to_list.
  assert (map_to_list (vals Demo.queue)
          = [("second", 8); ("fourth", 10); ("last", 5)]%string) as E
    by (vm_compute; reflexivity).
  rewrite E in Hv. clear E. rewrite !elem_of_cons in Hv.
  destruct Hv as [Hv|[Hv|[Hv|Hv%elem_of_nil]]]; [| | |done];
    injection Hv as _ ->; done.
Qed.

Lemma swap_exchanges_or_panics_witness :
  (0 <= 0 < len (pm Demo.queue) ∧ 0 <= 2 < len (pm Demo.queue)) ∧
  (∃ pq', result (swap Demo.queue 0 2) = Done pq' ∧
          slot (pm pq') 0 = slot (pm Demo.queue) 2) ∧
  ¬ (0 <= 0 < len (pm Demo.queue) ∧ 0 <= 5 < len (pm Demo.queue)) ∧
  result (swap Demo.queue 0 5) = Panic IndexOutOfRange.
Proof.
  assert (0 <= 0 < len (pm Demo.queue) ∧ 0 <= 2 < len (pm Demo.queue)) as Hin
    by (vm_compute; repeat split; discriminate || reflexivity).
  assert (¬ (0 <= 0 < len (pm Demo.queue) ∧ 0 <= 5 < len (pm Demo.queue))) as Hout
    by (intros (_ & _ & Hlt); vm_compute in Hlt; discriminate).
  split; [exact Hin|]. split.
  - destruct (proj1 (swap_exchanges_or_panics Demo.queue 0 2) Hin)
      as (pq' & E & E0 & _).
    exists pq'. split; [exact E|exact E0].
  - split; [exact Hout|].
    exact (proj2 (swap_exchanges_or_panics Demo.queue 0 5) Hout).
Defined.

Lemma swap_involution_witness :
  inverse Demo.queue ∧ 0 <= 0 < len (pm Demo.queue) ∧
  0 <= 2 < len (pm Demo.queue) ∧
  ∃ pq', result (swap Demo.queue 0 2) = Done pq' ∧
         result (swap Demo.queue 2 0) = Done pq' ∧
         result (swap pq' 0 2) = Done Demo.queue.
Proof.
  assert (0 <= 0 < len (pm Demo.queue)) as H0 by (vm_compute; split; discriminate || reflexivity).
  assert (0 <= 2 < len (pm Demo.queue)) as H2 by (vm_compute; split; discriminate || reflexivity).
  pose proof (p_inverse _ queue_paired) as Hinv.
  split; [exact Hinv|]. split; [exact H0|]. split; [exact H2|].
  destruct (swap_involution Demo.queue 0 2 Hinv H0 H2) as (pq' & E1 & E2 & E3 & _).
  exists pq'. split; [exact E1|]. split; [exact E2|exact E3].
Defined.

Lemma swim_frame_witness :
  0 <= 2 < len (pm Demo.queue) ∧ 2 <= GoInt.max_int ∧
  ∃ pq', result (swim Demo.queue 2) = Done pq' ∧ pm pq' ≡ₚ pm Demo.queue ∧
         vals pq' = vals Demo.queue.
Proof.
  assert (0 <= 2 < len (pm Demo.queue)) as H2 by (vm_compute; split; discriminate || reflexivity).
  assert (2 <= GoInt.max_int) as Hmax by (vm_compute; discriminate).
  split; [exact H2|]. split; [exact Hmax|].
  destruct (swim_frame Demo.queue 2 H2 Hmax) as (pq' & E & Hperm & _ & Hv & _).
  exists pq'. split; [exact E|]. split; [exact Hperm|exact Hv].
Defined.

Lemma sink_frame_witness :
  0 <= 0 <= GoInt.max_int ∧ 3 <= GoInt.max_int ∧ 3 <= len (pm Demo.queue) ∧
  ∃ pq', result (sink Demo.queue 0 3) = Done pq' ∧ pm pq' ≡ₚ pm Demo.queue ∧
         vals pq' = vals Demo.queue.
Proof.
  assert (0 <= 0 <= GoInt.max_int) as H0 by (vm_compute; split; discriminate).
  assert (3 <= GoInt.max_int) as Hmax by (vm_compute; discriminate).
  assert (3 <= len (pm Demo.queue)) as Hn by (vm_compute; discriminate).
  split; [exact H0|]. split; [exact Hmax|]. split; [exact Hn|].
  destruct (sink_frame Demo.queue 0 3 H0 Hmax Hn) as (pq' & E & Hperm & _ & Hv & _).
  exists pq'. split; [exact E|]. split; [exact Hperm|exact Hv].
Defined.

Lemma sifting_ordered_queue_witness :
  StrictWeak Demo.less ∧ reachable Demo.less Demo.queue ∧
  0 <= 1 < len (pm Demo.queue) ∧ 3 <= len (pm Demo.queue) ∧
  result (swim Demo.queue 1) = Done Demo.queue ∧
  result (sink Demo.queue 1 3) = Done Demo.queue.
Proof.
  assert (0 <= 1 < len (pm Demo.queue)) as H1 by (vm_compute; split; discriminate || reflexivity).
  assert (3 <= len (pm Demo.queue)) as Hn by (vm_compute; discriminate).
  split; [apply less_strict_weak|]. split; [apply queue_reachable|].
  split; [exact H1|]. split; [exact Hn|].
  exact (sifting_ordered_queue Demo.less Demo.queue 1 3
           less_strict_weak queue_reachable H1 Hn).
Defined.

Lemma Push_then_lookup_witness :
  reachable Demo.less Demo.queue ∧ Contains Demo.queue "new"%string = false ∧
  Len Demo.queue < GoInt.max_int ∧
  ∃ pq', result (Push Demo.queue "new"%string 1) = Done (pq', None) ∧
         Contains pq' "new"%string = true ∧
         ValueOf pq' "new"%string = (1, true) ∧
         Len pq' = Len Demo.queue + 1.
Proof.
  assert (Contains Demo.queue "new"%string = false) as Hk by (vm_compute; reflexivity).
  assert (Len Demo.queue < GoInt.max_int) as Hlen by (vm_compute; reflexivity).
  split; [apply queue_reachable|]. split; [exact Hk|]. split; [exact Hlen|].
  destruct (Push_then_lookup Demo.less Demo.queue "new"%string 1
              queue_reachable Hk Hlen) as (pq' & E & _ & Hc & Hv & Hl & _).
  exists pq'. split; [exact E|]. split; [exact Hc|]. split; [exact Hv|exact Hl].
Defined.

Lemma Pop_returns_peek_witness :
  reachable Demo.less Demo.queue ∧ IsEmpty Demo.queue = false ∧
  ∃ pq' k v, result (Peek Demo.queue) = Done (k, v, true) ∧
             result (Pop Demo.queue) = Done (pq', (k, v, true)) ∧
             Contains pq' k = false ∧ Len pq' = Len Demo.queue - 1.
Proof.
  assert (IsEmpty Demo.queue = false) as Hne by (vm_compute; reflexivity).
  split; [apply queue_reachable|]. split; [exact Hne|].
  destruct (Pop_returns_peek Demo.less Demo.queue queue_reachable Hne)
    as (pq' & k & v & E1 & E2 & _ & _ & Hc & Hl & _).
  exists pq', k, v. split; [exact E1|]. split; [exact E2|].
  split; [exact Hc|exact Hl].
Defined.

Lemma Peek_is_best_witness :
  StrictWeak Demo.less ∧ reachable Demo.less Demo.queue ∧
  result (Peek Demo.queue) = Done ("last"%string, 5, true) ∧
  ∀ k' v', ValueOf Demo.queue k' = (v', true) → Demo.less v' 5 = false.
Proof.
  assert (result (Peek Demo.queue) = Done ("last"%string, 5, true)) as E
    by (vm_compute; reflexivity).
  split; [apply less_strict_weak|]. split; [apply queue_reachable|].
  split; [exact E|].
  exact (Peek_is_best Demo.less Demo.queue _ _ less_strict_weak queue_reachable E).
Defined.

Lemma Remove_then_lookup_witness :
  reachable Demo.less Demo.queue ∧ Contains Demo.queue "second"%string = true ∧
  ∃ pq', result (Remove Demo.queue "second"%string) = Done pq' ∧
         Contains pq' "second"%string = false ∧
         Len pq' = Len Demo.queue - 1.
Proof.
  assert (Contains Demo.queue "second"%string = true) as Hk by (vm_compute; reflexivity).
  split; [apply queue_reachable|]. split; [exact Hk|].
  destruct (Remove_then_lookup Demo.less Demo.queue "second"%string
              queue_reachable Hk) as (pq' & E & _ & Hc & _ & Hl & _).
  exists pq'. split; [exact E|]. split; [exact Hc|exact Hl].
Defined.

Lemma Update_then_lookup_witness :
  reachable Demo.less Demo.queue ∧ Contains Demo.queue "second"%string = true ∧
  ∃ pq', result (Update Demo.queue "second"%string 1) = Done (pq', None) ∧
         ValueOf pq' "second"%string = (1, true) ∧ Len pq' = Len Demo.queue.
Proof.
  assert (Contains Demo.queue "second"%string = true) as Hk by (vm_compute; reflexivity).
  split; [apply queue_reachable|]. split; [exact Hk|].
  destruct (Update_then_lookup Demo.less Demo.queue "second"%string 1
              queue_reachable Hk) as (pq' & E & _ & Hv & Hl & _).
  exists pq'. split; [exact E|]. split; [exact Hv|exact Hl].
Defined.

Lemma Contains_iff_ValueOf_witness :
  reachable Demo.less Demo.queue ∧
  Contains Demo.queue "second"%string = (ValueOf Demo.queue "second"%string).2 ∧
  (Contains Demo.queue "second"%string = true ↔ "second"%string ∈ pm Demo.queue).
Proof.
  split; [apply queue_reachable|].
  exact (Contains_iff_ValueOf Demo.less Demo.queue "second"%string queue_reachable).
Defined.

Lemma IsEmpty_iff_no_key_witness :
  reachable Demo.less Demo.queue ∧
  (IsEmpty Demo.queue = true ↔ ∀ k, Contains Demo.queue k = false).
Proof.
  split; [apply queue_reachable|].
  exact (IsEmpty_iff_no_key Demo.less Demo.queue queue_reachable).
Defined.

Lemma pops_drain_in_order_witness :
  StrictWeak Demo.less ∧ reachable Demo.less Demo.queue ∧
  ∃ pq' out, result (pop_n (Z.to_nat (Len Demo.queue)) Demo.queue) = Done (pq', out) ∧
    Forall (λ r, r.2 = true) out ∧
    out.*1 ≡ₚ map_to_list (vals Demo.queue) ∧
    StronglySorted (λ x y, Demo.less y.1.2 x.1.2 = false) out ∧
    IsEmpty pq' = true.
Proof.
  split; [apply less_strict_weak|]. split; [apply queue_reachable|].
  destruct (pops_drain_in_order Demo.less Demo.queue less_strict_weak queue_reachable)
    as (pq' & out & E & Hf & Hp & Hs & He & _).
  exists pq', out. split; [exact E|]. split; [exact Hf|]. split; [exact Hp|].
  split; [exact Hs|exact He].
Defined.

Lemma Push_best_is_next_witness :
  StrictWeak Demo.less ∧ reachable Demo.less Demo.queue ∧
  Contains Demo.queue "new"%string = false ∧ Len Demo.queue < GoInt.max_int ∧
  (∀ k' v', ValueOf Demo.queue k' = (v', true) → Demo.less 1 v' = true) ∧
  ∃ pq', result (Push Demo.queue "new"%string 1) = Done (pq', None) ∧
         result (Peek pq') = Done ("new"%string, 1, true).
Proof.
  assert (Contains Demo.queue "new"%string = false) as Hk by (vm_compute; reflexivity).
  assert (Len Demo.queue < GoInt.max_int) as Hlen by (vm_compute; reflexivity).
  assert (∀ k' v', ValueOf Demo.queue k' = (v', true) → Demo.less 1 v' = true)
    as Hbest.
  { intros k' v' Hv%queue_values. apply Z.ltb_lt. lia. }
  split; [apply less_strict_weak|]. split; [apply queue_reachable|].
  split; [exact Hk|]. split; [exact Hlen|]. split; [exact Hbest|].
  exact (Push_best_is_next Demo.less Demo.queue "new"%string 1
           less_strict_weak queue_reachable Hk Hlen Hbest).
Defined.

Lemma Update_best_is_next_witness :
  StrictWeak Demo.less ∧ reachable Demo.less Demo.queue ∧
  Contains Demo.queue "fourth"%string = true ∧
  (∀ k' v', k' ≠ "fourth"%string → ValueOf Demo.queue k' = (v', true) →
            Demo.less 1 v' = true) ∧
  ∃ pq', result (Update Demo.queue "fourth"%string 1) = Done (pq', None) ∧
         result (Peek pq') = Done ("fourth"%string, 1, true).
Proof.
  assert (Contains Demo.queue "fourth"%string = true) as Hk by (vm_compute; reflexivity).
  assert (∀ k' v', k' ≠ "fourth"%string → ValueOf Demo.queue k' = (v', true) →
                   Demo.less 1 v' = true) as Hbest.
  { intros k' v' _ Hv%queue_values. apply Z.ltb_lt. lia. }
  split; [apply less_strict_weak|]. split; [apply queue_reachable|].
  split; [exact Hk|]. split; [exact Hbest|].
  exact (Update_best_is_next Demo.less Demo.queue "fourth"%string 1
           less_strict_weak queue_reachable Hk Hbest).
Defined.

Lemma Push_Remove_round_trip_witness :
  reachable Demo.less Demo.queue ∧ Contains Demo.queue "new"%string = false ∧
  Len Demo.queue < GoInt.max_int ∧
  ∃ pq1 pq2, result (Push Demo.queue "new"%string 1) = Done (pq1, None) ∧
    result (Remove pq1 "new"%string) = Done pq2 ∧
    vals pq2 = vals Demo.queue ∧ Len pq2 = Len Demo.queue ∧
    pm pq2 ≡ₚ pm Demo.queue.
Proof.
  assert (Contains Demo.queue "new"%string = false) as Hk by (vm_compute; reflexivity).
  assert (Len Demo.queue < GoInt.max_int) as Hlen by (vm_compute; reflexivity).
  split; [apply queue_reachable|]. split; [exact Hk|]. split; [exact Hlen|].
  destruct (Push_Remove_round_trip Demo.less Demo.queue "new"%string 1
              queue_reachable Hk Hlen) as (pq1 & pq2 & E1 & E2 & Hv & Hl & Hp & _).
  exists pq1, pq2. split; [exact E1|]. split; [exact E2|]. split; [exact Hv|].
  split; [exact Hl|exact Hp].
Defined.

Lemma reachable_call_returns_witness :
  reachable Demo.less Demo.queue ∧
  ∃ pq', result (apply_op Demo.queue OpPop) = Done pq' ∧
         reachable Demo.less pq'.
Proof.
  split; [apply queue_reachable|].
  destruct (reachable_call_returns Demo.less Demo.queue OpPop queue_reachable)
    as [Hret|(_ & _ & k & v & Hop)]; [exact Hret|discriminate Hop].
Defined.
